(** * WebGLTesting: the frame loop, its FPS counter and the scene set-up

    A shallow embedding of [main], [render], [initShaderProgram] and
    [loadShader] (the entry script) and of [drawScene],
    [setPositionAttribute] and [setColorAttribute] (draw-scene.js).

    Numbers.  A JavaScript number is an IEEE 754 binary64 value; it is
    modelled by Rocq's primitive [float], which is that format with
    round-to-nearest-even, signed zeros, the two infinities and one [NaN].
    The counters [frameCursor] and [numFrames], which stay small integers,
    are kept as [nat]. *)

From stdpp Require Import base list numbers strings pretty.
From Stdlib Require Import ZArith QArith Qcanon Lia Floats.

Set Warnings "-inexact-float".
Local Open Scope float_scope.

(** ** JavaScript numbers and values *)

Inductive value : Type :=
  | VUndef
  | VNum (n : float).

(** [x !== x] *)
Definition isNaN (x : float) : bool := negb (x =? x).

(** [ToNumber]: [undefined] converts to [NaN]. *)
Definition toNumber (v : value) : float :=
  match v with
  | VUndef => nan
  | VNum n => n
  end.

(** [v * k] on a value that may be [undefined]. *)
Definition times (v : value) (k : float) : value := VNum (toNumber v * k).

(** [v || 0]: [undefined], [NaN], [0] and [-0] are falsy. *)
Definition orZero (v : value) : float :=
  match v with
  | VUndef => 0
  | VNum x => if isNaN x || (x =? 0) then 0 else x
  end.

(** A counter (an array index or a length) read as a number; exact below
    [2^53]. *)
Definition ofNat (n : nat) : float := of_uint63 (Uint63.of_Z (Z.of_nat n)).

(** ** JavaScript arrays

    A read past the end gives [undefined]; a write past the end extends the
    array, leaving holes that read as [undefined]. *)

Definition arrayGet (a : list value) (i : nat) : value :=
  default VUndef (a !! i).

Definition arraySet (a : list value) (i : nat) (v : value) : list value :=
  if decide (i < length a)%nat then <[i:=v]> a
  else a ++ replicate (i - length a) VUndef ++ [v].

(** ** The frame loop: the variables closed over by [render] *)

Record Loop : Type := mkLoop {
  previousTime : float;
  cubeRotation : float;
  deltaTime : float;
  frameTimes : list value;
  frameCursor : nat;
  numFrames : nat;
  totalFPS : float
}.

Definition maxFrames : nat := 500.

(** The values the variables are declared with in [main]. *)
Definition start : Loop :=
  {| previousTime := 0; cubeRotation := 0; deltaTime := 0;
     frameTimes := []; frameCursor := 0; numFrames := 0; totalFPS := 0 |}.

(** The frame clock: [deltaTime = now - previousTime; previousTime = now],
    on [now] already in seconds. *)
Definition tick (now : float) (s : Loop) : Loop :=
  {| previousTime := now;
     cubeRotation := cubeRotation s;
     deltaTime := now - previousTime s;
     frameTimes := frameTimes s; frameCursor := frameCursor s;
     numFrames := numFrames s; totalFPS := totalFPS s |}.

(** [cubeRotation += deltaTime] *)
Definition spin (s : Loop) : Loop :=
  {| previousTime := previousTime s;
     cubeRotation := cubeRotation s + deltaTime s;
     deltaTime := deltaTime s;
     frameTimes := frameTimes s; frameCursor := frameCursor s;
     numFrames := numFrames s; totalFPS := totalFPS s |}.

(** The FPS counter, from [const fps = 1 / deltaTime] to
    [frameCursor %= maxFrames], for a ring of [cap] slots. *)
Definition track (cap : nat) (s : Loop) : Loop :=
  let fps := 1 / deltaTime s in
  let total := totalFPS s
               + (fps - orZero (arrayGet (frameTimes s) (frameCursor s))) in
  let times := arraySet (frameTimes s) (frameCursor s) (VNum fps) in
  let cursor := S (frameCursor s) in
  let frames := Nat.max (numFrames s) cursor in
  {| previousTime := previousTime s;
     cubeRotation := cubeRotation s;
     deltaTime := deltaTime s;
     frameTimes := times;
     frameCursor := (cursor mod cap)%nat;
     numFrames := frames;
     totalFPS := total |}.

(** [const averageFPS = totalFPS / numFrames] *)
Definition averageFPS (s : Loop) : float := totalFPS s / ofNat (numFrames s).

(** One call of the FPS counter with a given [deltaTime] (the spec's
    [update(deltaSeconds)]): the counter's lines of [render], ring of [cap]
    slots. *)
Definition update (cap : nat) (delta : float) (s : Loop) : Loop :=
  track cap
    {| previousTime := previousTime s; cubeRotation := cubeRotation s;
       deltaTime := delta;
       frameTimes := frameTimes s; frameCursor := frameCursor s;
       numFrames := numFrames s; totalFPS := totalFPS s |}.

(** The counter after a sequence of deltas, oldest first, from the initial
    variables. *)
Definition updates (cap : nat) (deltas : list float) : Loop :=
  foldl (λ s d, update cap d s) start deltas.

(** The sample a delta inserts: [1 / deltaTime]. *)
Definition fpsOf (d : float) : float := 1 / d.

(** Sum of a sequence of numbers, added one after the other from 0. *)
Definition jssum (l : list float) : float := foldl PrimFloat.add 0 l.

(** The samples resident in the ring: [frameTimes[0 .. numFrames-1]]. *)
Definition resident (s : Loop) : list float :=
  (λ i, toNumber (arrayGet (frameTimes s) i)) <$> seq 0 (numFrames s).

(** The last [n] elements of a list. *)
Definition lastn {A} (n : nat) (l : list A) : list A := drop (length l - n) l.

(** ** Numbers as rationals

    A finite number is a rational; an operation is exact when its result
    is the rational result, with nothing rounded off and no overflow. *)

Definition finite (x : float) : bool :=
  match Prim2SF x with
  | S754_zero _ | S754_finite _ _ _ => true
  | _ => false
  end.

(** The rational a finite number stands for (0 for the others). *)
Definition real (x : float) : Qc :=
  match Prim2SF x with
  | S754_finite s m e =>
      Q2Qc ((if s then - inject_Z (Z.pos m) else inject_Z (Z.pos m)) * 2 ^ e)%Q
  | _ => 0%Qc
  end.

Definition exactAdd (x y : float) : bool :=
  finite x && finite y && finite (x + y)
  && Qc_eq_bool (real (x + y)) (real x + real y)%Qc.

Definition exactSub (x y : float) : bool :=
  finite x && finite y && finite (x - y)
  && Qc_eq_bool (real (x - y)) (real x - real y)%Qc.

(** The two operations on the running sum in one update,
    [totalFPS += fps - (frameTimes[frameCursor] || 0)], are exact. *)
Definition exactStep (s : Loop) (d : float) : bool :=
  let fps := 1 / d in
  let old := orZero (arrayGet (frameTimes s) (frameCursor s)) in
  exactSub fps old && exactAdd (totalFPS s) (fps - old).

Fixpoint exactFrom (cap : nat) (s : Loop) (ds : list float) : bool :=
  match ds with
  | [] => true
  | d :: rest => exactStep s d && exactFrom cap (update cap d s) rest
  end.

(** Every update of a run from the initial variables is exact. *)
Definition exactRun (cap : nat) (ds : list float) : bool :=
  exactFrom cap start ds.

(** Sum of rationals. *)
Definition Qcsum (l : list Qc) : Qc := foldr Qcplus 0%Qc l.

(** ** Matrices

    gl-matrix is a third-party script that the page loads; it is not among
    the sources.  A matrix is kept as the sequence of elementary transforms
    it is the product of, left to right, and [denote] multiplies the
    sequence out in any matrix monoid. *)

Definition vec3 : Type := float * float * float.

Inductive xform : Type :=
  | Translation (v : vec3)
  | Rotation (rad : value) (axis : vec3)
  | Perspective (fovy aspect near far : float).

Module mat4.
Definition t : Type := list xform.

(** Modelled from the spec: gl-matrix's [mat4.create] is missing from the
    sources; it returns the identity, the empty product. *)
Definition create : t := [].

(** Modelled from the spec: gl-matrix's [mat4.translate(out, a, v)] is
    missing from the sources; [out] receives [a] right-multiplied with
    the translation by [v] (section 4.3). *)
Definition translate (a : t) (v : vec3) : t := a ++ [Translation v].

(** Modelled from the spec: gl-matrix's [mat4.rotate(out, a, rad, axis)]
    is missing from the sources; [out] receives [a] right-multiplied with
    the rotation by [rad] about [axis] (section 4.3). *)
Definition rotate (a : t) (rad : value) (axis : vec3) : t :=
  a ++ [Rotation rad axis].

(** Modelled from the spec: gl-matrix's [mat4.perspective] is missing from
    the sources; [out] is overwritten with the projection matrix. *)
Definition perspective (fovy aspect near far : float) : t :=
  [Perspective fovy aspect near far].
End mat4.

Section Denote.
Context {M : Type} (mul : M → M → M) (one : M) (den : xform → M).

(** Start at the identity and right-multiply each transform in turn. *)
Definition denote (m : mat4.t) : M :=
  foldl (λ acc x, mul acc (den x)) one m.
End Denote.

(** The rotation amounts a matrix was built from, in order. *)
Definition angles (m : mat4.t) : list value :=
  omap (λ x, match x with Rotation rad _ => Some rad | _ => None end) m.

(** The model-view matrix of [drawScene]: [create], [translate] by
    [[-0.0, 0.0, -6.0]] and the three [rotate] calls. *)
Definition modelViewMatrix (cubeRotation : value) : mat4.t :=
  let m := mat4.create in
  let m := mat4.translate m (neg_zero, 0, -6) in
  let m := mat4.rotate m cubeRotation (0, 0, 1) in
  let m := mat4.rotate m (times cubeRotation 0.7) (0, 1, 0) in
  let m := mat4.rotate m (times cubeRotation 0.3) (1, 0, 0) in
  m.

(** [Math.PI] *)
Definition PI : float := 3.141592653589793.

(** ** The graphics context and the page

    A call on the context, or on the page, is recorded in the order it is
    made.  What the context answers to a status or log query is given by
    [Context].  The WebGL interface takes the shader of [attachShader] and
    the program of [getAttribLocation] and [getUniformLocation] as
    non-nullable: handed [null], the call throws a [TypeError] before
    anything reaches the context, and neither script catches it.  The
    page is taken to have the [glcanvas] and [#fps] elements the script
    looks up. *)

Inductive shaderType : Type := VERTEX_SHADER | FRAGMENT_SHADER.

(** The four GLSL texts of the entry script. *)
Inductive source : Type := vsSource1 | vsSource2 | fsSource1 | fsSource2.

Record shader : Type := mkShader { shaderKind : shaderType; shaderText : source }.

(** A program object, known by the shaders attached to it. *)
Record program : Type := mkProgram { attached : list shader }.

(** An attribute or uniform slot: the program it was looked up in and its
    name. *)
Record location : Type := mkLocation { ofProgram : program; slot : string }.

Inductive buffer : Type := PositionBuffer | ColorBuffer | IndexBuffer.
Inductive target : Type := ARRAY_BUFFER | ELEMENT_ARRAY_BUFFER.

Record Context : Type := mkContext {
  webgl : bool;                        (* getContext('webgl') is not null *)
  clientWidth : float;
  clientHeight : float;
  compileStatus : shader → bool;       (* getShaderParameter(_, COMPILE_STATUS) *)
  shaderInfoLog : shader → string;
  linkStatus : program → bool;         (* getProgramParameter(_, LINK_STATUS) *)
  programInfoLog : program → string;
  numberToString : float → string      (* the engine's Number::toString *)
}.

Inductive call : Type :=
  | Alert (msg : string)
  | ClearColor (r g b a : float)
  | ClearDepth (d : float)
  | EnableDepthTest
  | DepthFuncLequal
  | Clear (depthToo : bool)
  | CreateShader (kind : shaderType)
  | ShaderSource (sh : shader)
  | CompileShader (sh : shader)
  | DeleteShader (sh : shader)
  | CreateProgram
  | AttachShader (sh : shader)
  | LinkProgram (p : program)
  | DeleteProgram (p : program)        (* in the API; never issued *)
  | InitBuffers
  | BindBuffer (tg : target) (b : buffer)
  | VertexAttribPointer (loc : location) (numComponents : nat)
  | EnableVertexAttribArray (loc : location)
  | UseProgram (p : option program)
  | UniformMatrix4fv (loc : location) (m : mat4.t)
  | DrawElements (vertexCount : nat)
  | SetTextContent (text : string)
  | RequestAnimationFrame.

(** How a computation ends: with a result, or with an uncaught
    [TypeError]. *)
Inductive outcome (A : Type) : Type :=
  | Returned (a : A)
  | Thrown.
Arguments Returned {A} a.
Arguments Thrown {A}.

(** A computation that issues calls and then returns or throws; what
    follows a throw is not run. *)
Definition IO (A : Type) : Type := list call * outcome A.

Global Instance IO_ret : MRet IO := λ A a, ([], Returned a).
Global Instance IO_bind : MBind IO := λ A B k m,
  match m.2 with
  | Returned a => (m.1 ++ (k a).1, (k a).2)
  | Thrown => (m.1, Thrown)
  end.

Definition emit (c : call) : IO unit := ([c], Returned tt).
Definition throw {A} : IO A := ([], Thrown).
Definition trace {A} (m : IO A) : list call := m.1.
Definition result {A} (m : IO A) : outcome A := m.2.

(** The result of a computation, or [d] if it threw. *)
Definition returned {A} (d : A) (m : IO A) : A :=
  match result m with
  | Returned a => a
  | Thrown => d
  end.

(** [gl.attachShader(program, shader)] *)
Definition attachShader (sh : option shader) : IO shader :=
  match sh with
  | Some s => emit (AttachShader s);; mret s
  | None => throw
  end.

(** [gl.getAttribLocation(program, name)] and
    [gl.getUniformLocation(program, name)].  Whatever the context answers
    (an index, a location object or [null]) is kept as the pair of program
    and name; the calls that are handed it later accept any answer. *)
Definition getLocation (p : option program) (name : string) : IO location :=
  match p with
  | Some q => mret (mkLocation q name)
  | None => throw
  end.

(** [x.toFixed(1)]: [NaN] and the infinities print as such; from 1e21 on
    the engine's [Number::toString] is used; below, the nearest number of
    tenths, the larger one on a tie, with one digit after the point. *)
Definition toFixed1 (toString : float → string) (x : float) : string :=
  match Prim2SF x with
  | S754_nan => "NaN"
  | S754_infinity s => if s then "-Infinity" else "Infinity"
  | S754_zero _ => "0.0"
  | S754_finite s m e =>
      let sign := if s then "-" else "" in
      if ((0 <=? e) && (10 ^ 21 <=? Z.pos m * 2 ^ e))%Z then
        sign +:+ toString (abs x)
      else
        let n := (if 0 <=? e then 10 * Z.pos m * 2 ^ e
                  else (20 * Z.pos m + 2 ^ (- e)) / (2 * 2 ^ (- e)))%Z in
        sign +:+ pretty (Z.to_N (n / 10)) +:+ "." +:+ pretty (Z.to_N (n mod 10))
  end.

Record ProgramInfo : Type := mkProgramInfo {
  piProgram : option program;
  vertexPosition : location;
  vertexColor : location;
  projectionMatrix : location;
  modelViewMatrixLoc : location
}.

Record Buffers : Type := mkBuffers { position : buffer; color : buffer; indices : buffer }.

(** Modelled from the spec: init-buffers.js is missing from the sources.
    The mesh provider returns three fixed buffers: positions, colours and
    indices (section 6). *)
Definition initBuffers : IO Buffers :=
  emit InitBuffers;;
  mret {| position := PositionBuffer; color := ColorBuffer; indices := IndexBuffer |}.

Definition loadShader (gl : Context) (type : shaderType) (src : source)
  : IO (option shader) :=
  let sh := mkShader type src in
  emit (CreateShader type);;
  emit (ShaderSource sh);;
  emit (CompileShader sh);;
  if negb (compileStatus gl sh) then
    emit (Alert ("An error occurred compiling the shaders: " +:+ shaderInfoLog gl sh));;
    emit (DeleteShader sh);;
    mret None
  else mret (Some sh).

Definition initShaderProgram (gl : Context) (vsSource fsSource : source)
  : IO (option program) :=
  vertexShader ← loadShader gl VERTEX_SHADER vsSource;
  fragmentShader ← loadShader gl FRAGMENT_SHADER fsSource;
  emit CreateProgram;;
  v ← attachShader vertexShader;
  f ← attachShader fragmentShader;
  let shaderProgram := mkProgram [v; f] in
  emit (LinkProgram shaderProgram);;
  if negb (linkStatus gl shaderProgram) then
    emit (Alert ("Unable to initialize the shader program: "
                 +:+ programInfoLog gl shaderProgram));;
    mret None
  else mret (Some shaderProgram).

Definition setPositionAttribute (buffers : Buffers) (programInfo : ProgramInfo)
  : IO unit :=
  emit (BindBuffer ARRAY_BUFFER (position buffers));;
  emit (VertexAttribPointer (vertexPosition programInfo) 3);;
  emit (EnableVertexAttribArray (vertexPosition programInfo)).

Definition setColorAttribute (buffers : Buffers) (programInfo : ProgramInfo)
  : IO unit :=
  emit (BindBuffer ARRAY_BUFFER (color buffers));;
  emit (VertexAttribPointer (vertexColor programInfo) 4);;
  emit (EnableVertexAttribArray (vertexColor programInfo)).

Definition drawScene (gl : Context) (programInfo : ProgramInfo)
    (buffers : Buffers) (cubeRotation : value) : IO unit :=
  emit (ClearColor 0 0 0 1);;
  emit (ClearDepth 1);;
  emit EnableDepthTest;;
  emit DepthFuncLequal;;
  emit (Clear true);;
  let fieldOfView := (45 * PI) / 180 in
  let aspect := clientWidth gl / clientHeight gl in
  let zNear := 0.1 in
  let zFar := 100 in
  let projection := mat4.perspective fieldOfView aspect zNear zFar in
  let modelView := modelViewMatrix cubeRotation in
  setPositionAttribute buffers programInfo;;
  setColorAttribute buffers programInfo;;
  emit (BindBuffer ELEMENT_ARRAY_BUFFER (indices buffers));;
  emit (UseProgram (piProgram programInfo));;
  emit (UniformMatrix4fv (projectionMatrix programInfo) projection);;
  emit (UniformMatrix4fv (modelViewMatrixLoc programInfo) modelView);;
  emit (DrawElements 36).

(** What [render] closes over besides the loop variables. *)
Record Scene : Type := mkScene { sceneInfo : ProgramInfo; sceneBuffers : Buffers }.

(** [main], up to and including the first [requestAnimationFrame(render)];
    [None] when it returns for want of a context. *)
Definition main (gl : Context) : IO (option (Scene * Loop)) :=
  if negb (webgl gl) then
    emit (Alert "Unable to initialize WebGL. Your browser may not support it.");;
    mret None
  else
    emit (ClearColor 0 0 0 1);;
    emit (Clear false);;
    shaderProgram ← initShaderProgram gl vsSource2 fsSource2;
    aVertexPosition ← getLocation shaderProgram "aVertexPosition";
    aVertexColor ← getLocation shaderProgram "aVertexColor";
    uProjectionMatrix ← getLocation shaderProgram "uProjectionMatrix";
    uModelViewMatrix ← getLocation shaderProgram "uModelViewMatrix";
    let programInfo :=
      {| piProgram := shaderProgram;
         vertexPosition := aVertexPosition;
         vertexColor := aVertexColor;
         projectionMatrix := uProjectionMatrix;
         modelViewMatrixLoc := uModelViewMatrix |} in
    buffers ← initBuffers;
    drawScene gl programInfo buffers VUndef;;
    emit RequestAnimationFrame;;
    mret (Some (mkScene programInfo buffers, start)).

(** [render(now)], [now] in milliseconds. *)
Definition render (gl : Context) (sc : Scene) (now : float) (s : Loop) : IO Loop :=
  let now := now * 0.001 in
  let s := tick now s in
  drawScene gl (sceneInfo sc) (sceneBuffers sc) (VNum (cubeRotation s));;
  let s := spin s in
  let s := track maxFrames s in
  emit (SetTextContent (toFixed1 (numberToString gl) (averageFPS s)));;
  emit RequestAnimationFrame;;
  mret s.

(** The loop variables after the browser has called [render] with each of
    the timestamps in turn. *)
Definition frames (gl : Context) (sc : Scene) (stamps : list float) : Loop :=
  foldl (λ s now, returned s (render gl sc now s)) start stamps.

(** The loop variables after each frame, first frame first. *)
Fixpoint history (gl : Context) (sc : Scene) (s : Loop) (stamps : list float)
  : list Loop :=
  match stamps with
  | [] => []
  | now :: rest =>
      let s' := returned s (render gl sc now s) in s' :: history gl sc s' rest
  end.

(** The rotation amounts handed to [mat4.rotate] for the matrices a trace
    uploads. *)
Definition rotationsFed (t : list call) : list value :=
  t ≫= λ c, match c with UniformMatrix4fv _ m => angles m | _ => [] end.

(** Whether a trace draws, and whether it releases a program. *)
Definition draws (t : list call) : bool :=
  existsb (λ c, match c with DrawElements _ => true | _ => false end) t.
Definition releasesProgram (t : list call) : bool :=
  existsb (λ c, match c with DeleteProgram _ => true | _ => false end) t.

(** ** The page over time

    The browser delivers a timestamp to [render] only while a request made
    with [requestAnimationFrame] is pending. *)

Definition isRequest (c : call) : bool :=
  match c with RequestAnimationFrame => true | _ => false end.
Definition isDraw (c : call) : bool :=
  match c with DrawElements _ => true | _ => false end.
Definition isText (c : call) : bool :=
  match c with SetTextContent _ => true | _ => false end.
Definition isAlert (c : call) : bool :=
  match c with Alert _ => true | _ => false end.
Definition isCreateShader (c : call) : bool :=
  match c with CreateShader _ => true | _ => false end.
Definition isCreateProgram (c : call) : bool :=
  match c with CreateProgram => true | _ => false end.
Definition isInitBuffers (c : call) : bool :=
  match c with InitBuffers => true | _ => false end.
Definition isDelete (c : call) : bool :=
  match c with DeleteShader _ | DeleteProgram _ => true | _ => false end.

(** How many calls of a kind a trace holds. *)
Definition countCalls (p : call → bool) (t : list call) : nat :=
  length (List.filter p t).

(** The frames run from loop variables [s], one per timestamp, for as long
    as a request is pending. *)
Fixpoint loop (gl : Context) (sc : Scene) (pending : bool) (s : Loop)
    (stamps : list float) : list call :=
  match stamps with
  | [] => []
  | now :: rest =>
      if pending then
        let r := render gl sc now s in
        trace r ++
        match result r with
        | Returned s' => loop gl sc (existsb isRequest (trace r)) s' rest
        | Thrown => []
        end
      else []
  end.

(** Everything the page does: [main], then the frames if [main] got as
    far as handing [render] to the browser. *)
Definition session (gl : Context) (stamps : list float) : list call :=
  let m := main gl in
  trace m ++
  match result m with
  | Returned (Some (sc, s)) => loop gl sc (existsb isRequest (trace m)) s stamps
  | _ => []
  end.

(** The texts written to the FPS element, in order. *)
Definition shown (t : list call) : list string :=
  omap (λ c, match c with SetTextContent a => Some a | _ => None end) t.

(** The average after each of a sequence of updates, from counter [u]. *)
Fixpoint averagesFrom (cap : nat) (u : Loop) (ds : list float) : list float :=
  match ds with
  | [] => []
  | d :: rest =>
      let u' := update cap d u in
      averageFPS u' :: averagesFrom cap u' rest
  end.

(** The deltas [render] computes for a run of timestamps in milliseconds
    that starts with [previousTime = prev]. *)
Fixpoint deltasOf (prev : float) (stamps : list float) : list float :=
  match stamps with
  | [] => []
  | t :: rest => let now := t * 0.001 in (now - prev) :: deltasOf now rest
  end.

(** The timestamp of the frame before frame [i] (frames counted from 0);
    0 before the first, which is what [previousTime] starts at. *)
Definition stampBefore (stamps : list float) (i : nat) : float :=
  match i with
  | O => 0
  | S j => default 0 (stamps !! j)
  end.

(** The three amounts [drawScene] hands to [mat4.rotate] for a rotation. *)
Definition drawnAngles (r : float) : list value :=
  [VNum r; VNum (r * 0.7); VNum (r * 0.3)].

(** What the context has bound: the buffers on the two targets and the
    program in use. *)
Record Bound : Type := mkBound {
  boundArray : option buffer;
  boundElement : option buffer;
  inUse : option program
}.

Definition unbound : Bound :=
  {| boundArray := None; boundElement := None; inUse := None |}.

Definition rebind (g : Bound) (c : call) : Bound :=
  match c with
  | BindBuffer ARRAY_BUFFER b =>
      {| boundArray := Some b; boundElement := boundElement g; inUse := inUse g |}
  | BindBuffer ELEMENT_ARRAY_BUFFER b =>
      {| boundArray := boundArray g; boundElement := Some b; inUse := inUse g |}
  | UseProgram p =>
      {| boundArray := boundArray g; boundElement := boundElement g; inUse := p |}
  | _ => g
  end.

(** A call that reads the bindings, with what it finds there: an
    attribute pointer takes the buffer on [ARRAY_BUFFER], a draw the
    buffer on [ELEMENT_ARRAY_BUFFER] and the program in use. *)
Inductive reading : Type :=
  | PointerFrom (loc : location) (numComponents : nat) (from : option buffer)
  | DrawWith (vertexCount : nat) (index : option buffer) (prog : option program).

Definition reads (g : Bound) (c : call) : list reading :=
  match c with
  | VertexAttribPointer loc n => [PointerFrom loc n (boundArray g)]
  | DrawElements n => [DrawWith n (boundElement g) (inUse g)]
  | _ => []
  end.

(** The bindings after a trace, and the readings made along it. *)
Definition settle (g : Bound) (t : list call) : Bound := foldl rebind g t.

Fixpoint readings (g : Bound) (t : list call) : list reading :=
  match t with
  | [] => []
  | c :: rest => reads g c ++ readings (rebind g c) rest
  end.

(** The program [initShaderProgram] builds from the two shaders of
    [main], the [programInfo] object [main] builds around it, and the
    buffers [initBuffers] returns. *)
Definition linked : program :=
  mkProgram [mkShader VERTEX_SHADER vsSource2;
             mkShader FRAGMENT_SHADER fsSource2].

Definition infoFor (p : program) : ProgramInfo :=
  {| piProgram := Some p;
     vertexPosition := mkLocation p "aVertexPosition";
     vertexColor := mkLocation p "aVertexColor";
     projectionMatrix := mkLocation p "uProjectionMatrix";
     modelViewMatrixLoc := mkLocation p "uModelViewMatrix" |}.

Definition theBuffers : Buffers :=
  {| position := PositionBuffer; color := ColorBuffer; indices := IndexBuffer |}.

Definition theScene : Scene := mkScene (infoFor linked) theBuffers.

(** Both shaders of [main] compile and the program links. *)
Definition startsUp (gl : Context) : bool :=
  webgl gl
  && compileStatus gl (mkShader VERTEX_SHADER vsSource2)
  && compileStatus gl (mkShader FRAGMENT_SHADER fsSource2)
  && linkStatus gl linked.

(** ** The ring *)

(** Where the cursor is, how many slots are in use, and which sample each
    of the last [cap] updates left in which slot. *)
Definition shaped (cap : nat) (ds : list float) (s : Loop) : Prop :=
  frameCursor s = (length ds mod cap)%nat ∧
  numFrames s = (length ds `min` cap)%nat ∧
  length (frameTimes s) = (length ds `min` cap)%nat ∧
  ∀ j d, ds !! j = Some d → (length ds ≤ j + cap)%nat →
    frameTimes s !! (j mod cap)%nat = Some (VNum (fpsOf d)).

(** Two sets of loop variables with the same FPS counter. *)
Definition sameCounter (s u : Loop) : Prop :=
  frameTimes s = frameTimes u ∧ frameCursor s = frameCursor u ∧
  numFrames s = numFrames u ∧ totalFPS s = totalFPS u.

(** [a <= b] holds. *)
Definition jsle (a b : float) : Prop := (a <=? b) = true.

(** The timestamps are finite and not negative, and none is below the one
    before it ([prev] before the first). *)
Fixpoint ascending (prev : float) (stamps : list float) : bool :=
  match stamps with
  | [] => true
  | t :: rest => finite t && (0 <=? t) && (prev <=? t) && ascending t rest
  end.

Definition nondecreasing (stamps : list float) : Prop :=
  ascending 0 stamps = true.

(** ** Sample inputs *)

(** 501 updates with deltas 1, 1/2, 1/4 and 1/8 of a second in turn. *)
Definition pulse : list float :=
  (λ i, match (i mod 4)%nat with
        | 0%nat => 1 | 1%nat => 0.5 | 2%nat => 0.25 | _ => 0.125
        end) <$> seq 0 501.

(** A frame with no time elapsed, then 500 frames at 60 per second. *)
Definition stall : list float := 0 :: replicate 500 (1 / 60).

(** 250 frames at 30 per second, a frame with no time elapsed, then 500
    more frames at 30 per second. *)
Definition hiccup : list float :=
  replicate 250 (1 / 30) ++ 0 :: replicate 500 (1 / 30).

(** Three frames at 10, 20 and 30 frames per second. *)
Definition warmup : list float := [1 / 10; 1 / 20; 1 / 30].

(** Timestamps in milliseconds, one of them repeated. *)
Definition stamps : list float := [16; 33; 33; 50].

Definition canvas (compiles links : bool) : Context :=
  {| webgl := true;
     clientWidth := 640; clientHeight := 480;
     compileStatus := λ _, compiles; shaderInfoLog := λ _, "ERROR: 0:1: syntax";
     linkStatus := λ _, links; programInfoLog := λ _, "ERROR: link";
     numberToString := λ _, "1e+21" |}.

Definition noContext : Context :=
  {| webgl := false;
     clientWidth := 0; clientHeight := 0;
     compileStatus := λ _, true; shaderInfoLog := λ _, EmptyString;
     linkStatus := λ _, true; programInfoLog := λ _, EmptyString;
     numberToString := λ _, EmptyString |}.

(** A first frame of [2^-60] seconds, then 500 frames of [2^-6] seconds. *)
Definition absorbed : list float :=
  (1 / 1152921504606846976) :: replicate 500 (1 / 64).

(** ** Rounding, on integers

    What the rounding of binary64 arithmetic computes, written on the
    integer mantissa; used to reason about [+], [-] and [*] on doubles. *)

Section RoundingModel.
Local Open Scope Z_scope.

(** Number of binary digits of a mantissa. *)
Definition dig (p : positive) : Z := Z.pos (digits2_pos p).

(** Whether quotient [q] with remainder [r] of a division by [2^n] is
    rounded up: above the half, or at the half when [q] is odd. *)
Definition roundUp (q r n : Z) : Z :=
  if (2 ^ n <? 2 * r) || ((2 * r =? 2 ^ n) && Z.odd q) then 1 else 0.

(** [M] shifted right by [n] places and rounded to nearest, ties to even. *)
Definition RNE (M n : Z) : Z := M / 2 ^ n + roundUp (M / 2 ^ n) (M mod 2 ^ n) n.

(** The shift record after [k + 1] one-place shifts of [M]: the quotient,
    the last bit shifted out, and whether any bit before it was set. *)
Definition shifted (M : Z) (k : nat) : shr_record :=
  {| shr_m := M / 2 ^ Z.of_nat (S k);
     shr_r := Z.odd (M / 2 ^ Z.of_nat k);
     shr_s := negb (M mod 2 ^ Z.of_nat k =? 0) |}.

(** The double with rounded mantissa [m1 <= 2^53] at exponent [E]: a
    mantissa of [2^53] moves to the next exponent, and an exponent above
    971 gives infinity. *)
Definition pack (m1 E : Z) : spec_float :=
  match m1 with
  | Z.pos p =>
      if m1 =? 2 ^ 53 then
        if E + 1 <=? 971 then S754_finite false (2 ^ 52)%positive (E + 1)
        else S754_infinity false
      else if E <=? 971 then S754_finite false p E else S754_infinity false
  | _ => S754_zero false
  end.
End RoundingModel.

(** * Properties *)

(** ** Arithmetic of doubles *)

Lemma sub_zero (x : float) : x - 0 = x.
Proof.
  apply Prim2SF_inj. rewrite sub_spec.
  change (Prim2SF 0) with (S754_zero false). unfold SF64sub.
  destruct (Prim2SF x) as [[]|[]| |[] m e]; reflexivity.
Qed.

Lemma add_nan_r (x : float) : x + nan = nan.
Proof.
  apply Prim2SF_inj. rewrite add_spec.
  change (Prim2SF nan) with S754_nan. unfold SF64add.
  destruct (Prim2SF x) as [[]|[]| |[] m e]; reflexivity.
Qed.

Lemma add_infinity_r (x : float) : x + infinity = infinity ∨ x + infinity = nan.
Proof.
  destruct (Prim2SF x) as [[]|[]| |[] m e] eqn:E;
    first [ left; apply Prim2SF_inj; rewrite add_spec, E; reflexivity
          | right; apply Prim2SF_inj; rewrite add_spec, E; reflexivity ].
Qed.

Lemma infinity_sub (y : float) : infinity - y = infinity ∨ infinity - y = nan.
Proof.
  destruct (Prim2SF y) as [[]|[]| |[] m e] eqn:E;
    first [ left; apply Prim2SF_inj; rewrite sub_spec, E; reflexivity
          | right; apply Prim2SF_inj; rewrite sub_spec, E; reflexivity ].
Qed.

Lemma nan_div (y : float) : nan / y = nan.
Proof.
  apply Prim2SF_inj. rewrite div_spec.
  change (Prim2SF nan) with S754_nan. unfold SF64div.
  destruct (Prim2SF y) as [[]|[]| |[] m e]; reflexivity.
Qed.

(** Rounding keeps the sign it is given. *)
Lemma binary_round_aux_sign (sx : bool) (mx ex : Z) (lx : SpecFloat.location) :
  let r := binary_round_aux prec emax sx mx ex lx in
  r = S754_nan ∨ r = S754_zero sx ∨ r = S754_infinity sx ∨
  ∃ m e, r = S754_finite sx m e.
Proof.
  unfold binary_round_aux.
  destruct (shr_fexp prec emax mx ex lx) as [mrs' e'].
  destruct (shr_fexp prec emax _ e' loc_Exact) as [mrs'' e''].
  destruct (shr_m mrs'') as [|m|m]; [auto| |auto].
  destruct (e'' <=? emax - prec)%Z; [|auto].
  right; right; right. by exists m, e''.
Qed.

Lemma ofNat_sign (n : nat) :
  let r := Prim2SF (ofNat n) in
  r = S754_nan ∨ r = S754_zero false ∨ r = S754_infinity false ∨
  ∃ m e, r = S754_finite false m e.
Proof.
  unfold ofNat. rewrite of_uint63_spec. unfold binary_normalize.
  pose proof (Uint63.to_Z_bounded (Uint63.of_Z (Z.of_nat n))) as [H _].
  destruct (Uint63.to_Z _) as [|p|p]; [auto| |lia].
  unfold binary_round. destruct (shl_align _ _ _) as [mz ez].
  apply binary_round_aux_sign.
Qed.

Lemma infinity_div_ofNat (n : nat) :
  infinity / ofNat n = infinity ∨ infinity / ofNat n = nan.
Proof.
  destruct (ofNat_sign n) as [E|[E|[E|(m & e & E)]]]; simpl in E;
    first [ left; apply Prim2SF_inj; rewrite div_spec, E; reflexivity
          | right; apply Prim2SF_inj; rewrite div_spec, E; reflexivity ].
Qed.

(** ** JavaScript arrays *)

Lemma arrayGet_ge (a : list value) (i : nat) :
  (length a ≤ i)%nat → arrayGet a i = VUndef.
Proof. intros H. unfold arrayGet. by rewrite lookup_ge_None_2. Qed.

Lemma arraySet_push (a : list value) (i : nat) (v : value) :
  i = length a → arraySet a i v = a ++ [v].
Proof.
  intros ->. unfold arraySet. case_decide; [lia|]. by rewrite Nat.sub_diag.
Qed.

Lemma arraySet_inside (a : list value) (i : nat) (v : value) :
  (i < length a)%nat → arraySet a i v = <[i:=v]> a.
Proof. intros H. unfold arraySet. by case_decide. Qed.

Lemma arrayGet_arraySet (a : list value) (i : nat) (v : value) :
  arrayGet (arraySet a i v) i = v.
Proof.
  unfold arrayGet, arraySet. case_decide.
  - by rewrite list_lookup_insert_eq.
  - rewrite lookup_app_r by lia. rewrite lookup_app_r; rewrite length_replicate; [|lia].
    by replace (i - length a - (i - length a))%nat with 0%nat by lia.
Qed.

Lemma fmap_arrayGet_seq (a : list value) :
  (λ i, toNumber (arrayGet a i)) <$> seq 0 (length a) = toNumber <$> a.
Proof.
  apply list_eq. intros i. rewrite !list_lookup_fmap.
  destruct (decide (i < length a)%nat) as [Hi|Hi].
  - rewrite lookup_seq_lt by done. simpl. unfold arrayGet.
    destruct (lookup_lt_is_Some_2 a i Hi) as [x ->]. done.
  - rewrite lookup_seq_ge by lia. by rewrite lookup_ge_None_2 by lia.
Qed.

(** ** Modular arithmetic of the cursor *)

Lemma mod_distinct (cap j n : nat) :
  (0 < cap)%nat → (j < n)%nat → (n < j + cap)%nat → (j mod cap ≠ n mod cap)%nat.
Proof.
  intros Hc Hj Hn E.
  pose proof (Nat.div_mod_eq j cap) as Dj. pose proof (Nat.div_mod_eq n cap) as Dn.
  rewrite E in Dj. set (r := (n mod cap)%nat) in *.
  set (a := (j / cap)%nat) in *. set (b := (n / cap)%nat) in *.
  destruct (decide (b ≤ a)%nat); nia.
Qed.

Lemma mod_back (cap n : nat) :
  (cap ≤ n)%nat → ((n - cap) mod cap = n mod cap)%nat.
Proof.
  intros H. replace n with ((n - cap) + 1 * cap)%nat at 2 by lia.
  by rewrite Nat.Div0.mod_add.
Qed.

(** ** The ring of the FPS counter *)

Lemma updates_snoc (cap : nat) (ds : list float) (d : float) :
  updates cap (ds ++ [d]) = update cap d (updates cap ds).
Proof. unfold updates. by rewrite foldl_snoc. Qed.

Lemma update_cursor (cap : nat) (delta : float) (s : Loop) :
  frameCursor (update cap delta s) = (S (frameCursor s) mod cap)%nat.
Proof. reflexivity. Qed.

Lemma update_frames (cap : nat) (delta : float) (s : Loop) :
  numFrames (update cap delta s) = (numFrames s `max` S (frameCursor s))%nat.
Proof. reflexivity. Qed.

Lemma update_times (cap : nat) (d : float) (s : Loop) :
  frameTimes (update cap d s)
  = arraySet (frameTimes s) (frameCursor s) (VNum (fpsOf d)).
Proof. reflexivity. Qed.

Lemma update_total (cap : nat) (d : float) (s : Loop) :
  totalFPS (update cap d s)
  = totalFPS s + (fpsOf d - orZero (arrayGet (frameTimes s) (frameCursor s))).
Proof. reflexivity. Qed.

Lemma jssum_snoc (l : list float) (x : float) : jssum (l ++ [x]) = jssum l + x.
Proof. unfold jssum. by rewrite foldl_snoc. Qed.

Lemma maxFrames_pos : (0 < maxFrames)%nat.
Proof. unfold maxFrames. lia. Qed.

Section Ring.
Variable cap : nat.
Hypothesis cap_pos : (0 < cap)%nat.

Lemma shaped_updates (ds : list float) : shaped cap ds (updates cap ds).
Proof using cap_pos.
  induction ds as [|d ds IH] using rev_ind.
  - repeat split; try done. simpl. by rewrite Nat.Div0.mod_0_l.
  - destruct IH as (Hc & Hn & Hl & Hs).
    rewrite updates_snoc. set (s := updates cap ds) in *.
    assert (length (ds ++ [d]) = S (length ds)) as Hlen
      by (rewrite length_app; simpl; lia).
    pose proof (Nat.mod_upper_bound (length ds) cap ltac:(lia)) as Hlt.
    unfold shaped.
    rewrite Hlen, update_cursor, update_frames, update_times, Hc, Hn.
    split; [|split; [|split]].
    + rewrite <- Nat.add_1_r, Nat.Div0.add_mod_idemp_l. by rewrite Nat.add_1_r.
    + destruct (decide (length ds < cap)%nat).
      * rewrite Nat.mod_small by done. lia.
      * lia.
    + destruct (decide (length ds < cap)%nat).
      * rewrite Nat.mod_small by done.
        rewrite arraySet_push by lia. rewrite length_app, Hl. simpl length. lia.
      * rewrite arraySet_inside by lia. rewrite length_insert. lia.
    + intros j d' Hj Hw.
      destruct (decide (j = length ds)) as [->|Hne].
      * rewrite lookup_app_r in Hj by lia. rewrite Nat.sub_diag in Hj.
        injection Hj as <-.
        pose proof (arrayGet_arraySet (frameTimes s) (length ds mod cap)
                      (VNum (fpsOf d))) as G.
        unfold arrayGet in G.
        destruct (arraySet _ _ _ !! _) eqn:E; simpl in G; [by subst|done].
      * pose proof (lookup_lt_Some _ _ _ Hj) as Hjl. rewrite Hlen in Hjl.
        rewrite lookup_app_l in Hj by lia.
        specialize (Hs j d' Hj ltac:(lia)).
        assert (j mod cap ≠ length ds mod cap)%nat as Hm
          by (apply mod_distinct; lia).
        destruct (decide (length ds < cap)%nat).
        -- rewrite (Nat.mod_small (length ds)) by done.
           rewrite arraySet_push by lia. rewrite lookup_app_l; [done|].
           by eapply lookup_lt_Some.
        -- rewrite arraySet_inside by lia.
           by rewrite list_lookup_insert_ne.
Qed.

Lemma lastn_snoc_small (ds : list float) (d : float) :
  (length ds < cap)%nat →
  lastn cap ds = ds ∧ lastn cap (ds ++ [d]) = ds ++ [d].
Proof.
  intros H. unfold lastn. rewrite length_app. simpl.
  replace (length ds - cap)%nat with 0%nat by lia.
  replace (length ds + 1 - cap)%nat with 0%nat by lia. done.
Qed.

Lemma lastn_snoc_full (ds : list float) (d : float) :
  (cap ≤ length ds)%nat →
  ∃ o rest, ds !! (length ds - cap)%nat = Some o ∧
    lastn cap ds = o :: rest ∧ lastn cap (ds ++ [d]) = rest ++ [d].
Proof using cap_pos.
  intros H. unfold lastn. rewrite length_app. simpl.
  destruct (lookup_lt_is_Some_2 ds (length ds - cap)%nat ltac:(lia)) as [o Ho].
  exists o, (drop (S (length ds - cap)) ds). split; [done|]. split.
  - by apply drop_S.
  - replace (length ds + 1 - cap)%nat with (S (length ds - cap)) by lia.
    by rewrite drop_app_le by lia.
Qed.

(** Until the ring is full the running sum is the left-to-right sum of
    the samples. *)
Lemma total_warmup (ds : list float) :
  (length ds ≤ cap)%nat →
  totalFPS (updates cap ds) = jssum (fpsOf <$> ds).
Proof using cap_pos.
  induction ds as [|d ds IH] using rev_ind; [done|].
  rewrite length_app. simpl. intros H.
  destruct (shaped_updates ds) as (Hc & Hn & Hl & Hs).
  rewrite updates_snoc, update_total, Hc, IH by lia.
  rewrite Nat.mod_small by lia. rewrite arrayGet_ge by lia. simpl orZero.
  by rewrite sub_zero, fmap_app, list_fmap_singleton, jssum_snoc.
Qed.
End Ring.

(** ** Runs without rounding *)

Lemma real_zero : real 0 = 0%Qc.
Proof. reflexivity. Qed.

Lemma SFeqb_finite_refl (s : bool) (m : positive) (e : Z) :
  SFeqb (S754_finite s m e) (S754_finite s m e) = true.
Proof.
  unfold SFeqb, SFcompare. rewrite Z.compare_refl, Pos.compare_cont_refl.
  by destruct s.
Qed.

(** [v || 0] has the real value of [v]: it only replaces [undefined],
    [NaN] and the zeros, whose real value is 0. *)
Lemma real_orZero (v : value) : real (orZero v) = real (toNumber v).
Proof.
  destruct v as [|x]; [reflexivity|]. simpl.
  destruct (Prim2SF x) as [s|s| |s m e] eqn:E.
  - destruct (_ || _); [|done]. unfold real. by rewrite E.
  - destruct (_ || _); [|done]. unfold real. by rewrite E.
  - destruct (_ || _); [|done]. unfold real. by rewrite E.
  - unfold isNaN. rewrite !eqb_spec, E, SFeqb_finite_refl.
    change (Prim2SF 0) with (S754_zero false). by destruct s.
Qed.

Lemma exactSub_spec (x y : float) :
  exactSub x y = true →
  finite (x - y) = true ∧ real (x - y) = (real x - real y)%Qc.
Proof.
  unfold exactSub. rewrite !andb_true_iff. intros [[[_ _] H] E].
  split; [done|]. by apply Qc_eq_bool_correct.
Qed.

Lemma exactAdd_spec (x y : float) :
  exactAdd x y = true →
  finite (x + y) = true ∧ real (x + y) = (real x + real y)%Qc.
Proof.
  unfold exactAdd. rewrite !andb_true_iff. intros [[[_ _] H] E].
  split; [done|]. by apply Qc_eq_bool_correct.
Qed.

Lemma exactFrom_snoc (cap : nat) (ds : list float) (d : float) (s : Loop) :
  exactFrom cap s (ds ++ [d])
  = exactFrom cap s ds && exactStep (foldl (λ s d, update cap d s) s ds) d.
Proof.
  revert s. induction ds as [|a ds IH]; intros s; simpl.
  - by rewrite andb_true_r.
  - by rewrite IH, andb_assoc.
Qed.

Lemma Qcsum_app (l k : list Qc) : Qcsum (l ++ k) = (Qcsum l + Qcsum k)%Qc.
Proof.
  induction l as [|x l IH].
  - change (Qcsum k = 0 + Qcsum k)%Qc. ring.
  - change (x + Qcsum (l ++ k) = x + Qcsum l + Qcsum k)%Qc. rewrite IH. ring.
Qed.

Lemma Qcsum_cons (x : Qc) (l : list Qc) : Qcsum (x :: l) = (x + Qcsum l)%Qc.
Proof. reflexivity. Qed.

Lemma Qcsum_singleton (x : Qc) : Qcsum [x] = x.
Proof. change (x + 0 = x)%Qc. ring. Qed.

Section Exact.
Variable cap : nat.
Hypothesis cap_pos : (0 < cap)%nat.

(** In a run whose running-sum updates are all exact, the running sum is
    the sum of the last [cap] samples, and the sum of the ring's slots. *)
Lemma total_exact (ds : list float) :
  exactRun cap ds = true →
  finite (totalFPS (updates cap ds)) = true ∧
  real (totalFPS (updates cap ds)) = Qcsum (real <$> (fpsOf <$> lastn cap ds)) ∧
  real (totalFPS (updates cap ds))
  = Qcsum (real <$> (toNumber <$> frameTimes (updates cap ds))).
Proof using cap_pos.
  induction ds as [|d ds IH] using rev_ind; [done|].
  unfold exactRun. rewrite exactFrom_snoc, andb_true_iff.
  fold (exactRun cap ds). fold (updates cap ds). intros [Hrun Hstep].
  destruct (IH Hrun) as (_ & Hwin & Harr). clear IH.
  destruct (shaped_updates cap cap_pos ds) as (Hc & Hn & Hl & Hs).
  rewrite updates_snoc. set (s := updates cap ds) in *.
  unfold exactStep in Hstep. change (1 / d) with (fpsOf d) in Hstep.
  apply andb_true_iff in Hstep as [Hsub Hadd].
  apply exactSub_spec in Hsub as [_ Hsub].
  apply exactAdd_spec in Hadd as [Hfin Hadd].
  rewrite update_total, update_times.
  split; [done|]. rewrite Hadd, Hsub, real_orZero. clear Hadd Hsub Hfin.
  rewrite Hc in *.
  destruct (decide (length ds < cap)%nat) as [Hsmall|Hfull].
  - destruct (lastn_snoc_small cap cap_pos ds d Hsmall) as [E1 E2].
    rewrite E1 in Hwin. rewrite E2. rewrite Nat.mod_small by done.
    rewrite arrayGet_ge by lia.
    rewrite arraySet_push by lia.
    rewrite !fmap_app, !list_fmap_singleton, !Qcsum_app, !Qcsum_singleton.
    rewrite <- Hwin, <- Harr. simpl toNumber.
    change (real nan) with 0%Qc. split; ring.
  - destruct (lastn_snoc_full cap cap_pos ds d ltac:(lia))
      as (o & rest & Ho & E1 & E2).
    pose proof (Hs _ _ Ho ltac:(lia)) as Hslot.
    rewrite mod_back in Hslot by lia.
    set (c := (length ds mod cap)%nat) in *.
    assert (c < length (frameTimes s))%nat as Hcl
      by (subst c; pose proof (Nat.mod_upper_bound (length ds) cap); lia).
    unfold arrayGet. rewrite Hslot. simpl default. simpl toNumber. split.
    + rewrite Hwin, E1, E2, !fmap_cons, !fmap_app, !list_fmap_singleton.
      rewrite Qcsum_cons, Qcsum_app, Qcsum_singleton. ring.
    + rewrite arraySet_inside by done. rewrite insert_take_drop by done.
      rewrite Harr. rewrite <- (take_drop_middle _ _ _ Hslot) at 1.
      rewrite !fmap_app, !fmap_cons, !Qcsum_app, !Qcsum_cons. simpl toNumber.
      ring.
Qed.

(** In such a run every sample is finite, and so is every slot of the
    ring. *)
Lemma exact_samples (ds : list float) :
  exactRun cap ds = true → Forall (λ d, finite (fpsOf d) = true) ds.
Proof.
  induction ds as [|d ds IH] using rev_ind; [constructor|].
  unfold exactRun. rewrite exactFrom_snoc, andb_true_iff.
  fold (exactRun cap ds). intros [Hrun Hstep].
  apply Forall_app. split; [by apply IH|]. repeat constructor.
  unfold exactStep, exactSub in Hstep. rewrite !andb_true_iff in Hstep.
  by destruct Hstep as [[[[H _] _] _] _].
Qed.

Lemma exact_slots (ds : list float) :
  exactRun cap ds = true →
  Forall (λ v, ∃ x, v = VNum x ∧ finite x = true) (frameTimes (updates cap ds)).
Proof using cap_pos.
  induction ds as [|d ds IH] using rev_ind; [constructor|].
  intros Hrun. pose proof (exact_samples _ Hrun) as Hall.
  apply Forall_app in Hall as [_ Hd]. apply Forall_inv in Hd.
  unfold exactRun in Hrun. rewrite exactFrom_snoc, andb_true_iff in Hrun.
  destruct Hrun as [Hrun _]. specialize (IH Hrun).
  destruct (shaped_updates cap cap_pos ds) as (Hc & _ & Hl & _).
  rewrite updates_snoc, update_times, Hc.
  pose proof (Nat.mod_upper_bound (length ds) cap ltac:(lia)).
  destruct (decide (length ds < cap)%nat).
  - rewrite Nat.mod_small by done. rewrite arraySet_push by lia.
    apply Forall_app. split; [done|]. apply Forall_singleton.
    eexists. split; [reflexivity|exact Hd].
  - rewrite arraySet_inside by lia. apply Forall_insert; [done|].
    eexists. split; [reflexivity|exact Hd].
Qed.
End Exact.

Lemma resident_updates (ds : list float) :
  resident (updates maxFrames ds)
  = toNumber <$> frameTimes (updates maxFrames ds).
Proof.
  destruct (shaped_updates maxFrames maxFrames_pos ds) as (_ & Hn & Hl & _).
  unfold resident. rewrite Hn, <- Hl. apply fmap_arrayGet_seq.
Qed.

Lemma length_lastn {A} (cap : nat) (l : list A) :
  length (lastn cap l) = (length l `min` cap)%nat.
Proof. unfold lastn. rewrite length_drop. lia. Qed.

(** ** The FPS counter *)

(** C1, amended: after more than [maxFrames] updates of a run in which
    every update of the running sum is exact (neither [fps - old] nor
    [totalFPS + (fps - old)] is rounded, overflows or meets an infinity or
    a [NaN]; so no delta is zero), [totalFPS] is finite, as are the last
    [maxFrames] samples, and its value is the exact sum of those samples,
    and of no older one. *)
Theorem totalFPS_last_window (ds : list float) :
  (maxFrames < length ds)%nat →
  exactRun maxFrames ds = true →
  finite (totalFPS (updates maxFrames ds)) = true ∧
  Forall (λ x, finite x = true) (fpsOf <$> lastn maxFrames ds) ∧
  real (totalFPS (updates maxFrames ds))
  = Qcsum (real <$> (fpsOf <$> lastn maxFrames ds)) ∧
  length (lastn maxFrames ds) = maxFrames.
Proof.
  intros Hlen Hrun.
  destruct (total_exact maxFrames maxFrames_pos ds Hrun) as (Hf & Hw & _).
  split; [done|]. split; [|split; [done|rewrite length_lastn; lia]].
  apply Forall_fmap. unfold lastn. apply Forall_drop.
  exact (exact_samples maxFrames ds Hrun).
Qed.

Lemma totalFPS_last_window_pulse :
  real (totalFPS (updates maxFrames pulse))
  = Qcsum (real <$> (fpsOf <$> lastn maxFrames pulse)).
Proof.
  destruct (totalFPS_last_window pulse) as (_ & _ & H & _).
  - vm_compute. lia.
  - vm_compute. reflexivity.
  - exact H.
Defined.

(** C1 as stated fails.  After a frame with no time elapsed the running
    sum holds [+Infinity]; when that sample leaves the ring the sum turns
    [NaN], although the 500 samples of the window are finite.  And with
    finite samples only, a first sample of [2^60] absorbs the 500 samples
    of 64 that follow, so when it leaves the ring the running sum is 0
    although the window sums to 32000. *)
Lemma totalFPS_after_stall :
  (maxFrames < length stall)%nat ∧
  totalFPS (updates maxFrames stall) = nan ∧
  fpsOf <$> lastn maxFrames stall = replicate 500 60 ∧
  jssum (fpsOf <$> lastn maxFrames stall) = 30000 ∧
  (maxFrames < length absorbed)%nat ∧
  totalFPS (updates maxFrames absorbed) = 0 ∧
  fpsOf <$> lastn maxFrames absorbed = replicate 500 64 ∧
  jssum (fpsOf <$> lastn maxFrames absorbed) = 32000.
Proof.
  split; [vm_compute; lia|]. split; [by vm_compute|]. split; [by vm_compute|].
  split; [by vm_compute|]. split; [vm_compute; lia|].
  split; [by vm_compute|]. split; by vm_compute.
Qed.

(** C2, amended: the code has no guard for [deltaTime = 0]: the update
    stores [fps = 1 / 0 = +Infinity] in the ring and adds it to [totalFPS],
    and the average it reports is [+Infinity] or [NaN], never a finite
    number; for the first update it is [+Infinity]. *)
Theorem zero_delta_unguarded (s : Loop) :
  let s' := update maxFrames 0 s in
  arrayGet (frameTimes s') (frameCursor s) = VNum infinity ∧
  (totalFPS s' = infinity ∨ totalFPS s' = nan) ∧
  (averageFPS s' = infinity ∨ averageFPS s' = nan) ∧
  averageFPS (update maxFrames 0 start) = infinity.
Proof.
  intros s'. subst s'.
  assert (totalFPS (update maxFrames 0 s) = infinity
          ∨ totalFPS (update maxFrames 0 s) = nan) as Ht.
  { rewrite update_total. change (fpsOf 0) with infinity.
    destruct (infinity_sub (orZero (arrayGet (frameTimes s) (frameCursor s))))
      as [-> | ->]; [apply add_infinity_r|right; apply add_nan_r]. }
  split; [|split; [done|split]].
  - rewrite update_times. apply arrayGet_arraySet.
  - unfold averageFPS. destruct Ht as [-> | ->].
    + apply infinity_div_ofNat.
    + right. apply nan_div.
  - by vm_compute.
Qed.

Lemma render_trace (gl : Context) (sc : Scene) (now : float) (s : Loop) :
  trace (render gl sc now s)
  = trace (drawScene gl (sceneInfo sc) (sceneBuffers sc) (VNum (cubeRotation s)))
    ++ [SetTextContent
          (toFixed1 (numberToString gl)
             (averageFPS (update maxFrames (now * 0.001 - previousTime s) s)));
        RequestAnimationFrame].
Proof. reflexivity. Qed.

Lemma render_result (gl : Context) (sc : Scene) (now : float) (s : Loop) :
  result (render gl sc now s)
  = Returned (track maxFrames (spin (tick (now * 0.001) s))).
Proof. reflexivity. Qed.

(** C2 as stated fails: a first frame whose timestamp is 0 has
    [deltaTime = 0], the average is [+Infinity], and the page shows
    [Infinity]. *)
Lemma zero_delta_shows_infinity :
  deltaTime (returned start (render (canvas true true) theScene 0 start)) = 0 ∧
  averageFPS (update maxFrames 0 start) = infinity ∧
  SetTextContent "Infinity"
    ∈ trace (render (canvas true true) theScene 0 start).
Proof.
  split; [by vm_compute|]. split; [by vm_compute|].
  rewrite render_trace. apply elem_of_app. right. by left.
Qed.

(** C3: after exactly [k] updates, [0 < k < maxFrames], the average is the
    sum of those [k] samples, added up in the order they came, divided by
    [k]. *)
Theorem warmup_average (ds : list float) :
  (0 < length ds < maxFrames)%nat →
  averageFPS (updates maxFrames ds)
  = jssum (fpsOf <$> ds) / ofNat (length ds).
Proof.
  intros [Hpos Hlt].
  destruct (shaped_updates maxFrames maxFrames_pos ds) as (_ & Hn & _).
  unfold averageFPS.
  rewrite Hn, (total_warmup maxFrames maxFrames_pos ds) by lia.
  by rewrite Nat.min_l by lia.
Qed.

Lemma warmup_average_three :
  averageFPS (updates maxFrames warmup)
  = jssum (fpsOf <$> warmup) / ofNat (length warmup).
Proof. apply (warmup_average warmup). vm_compute. lia. Defined.

(** C4, amended: after every update of a run from the initial variables in
    which every update of the running sum is exact (neither [fps - old]
    nor [totalFPS + (fps - old)] is rounded, overflows or meets an
    infinity or a [NaN]), [totalFPS] and the slots
    [frameTimes[0 .. numFrames-1]] are finite and the value of [totalFPS]
    is the exact sum of those slots. *)
Theorem totalFPS_is_ring_sum (ds : list float) :
  exactRun maxFrames ds = true →
  finite (totalFPS (updates maxFrames ds)) = true ∧
  Forall (λ x, finite x = true) (resident (updates maxFrames ds)) ∧
  real (totalFPS (updates maxFrames ds))
  = Qcsum (real <$> resident (updates maxFrames ds)).
Proof.
  intros Hrun.
  destruct (total_exact maxFrames maxFrames_pos ds Hrun) as (Hf & _ & Ha).
  split; [done|]. rewrite resident_updates. split; [|done].
  apply Forall_fmap.
  eapply Forall_impl; [exact (exact_slots maxFrames maxFrames_pos ds Hrun)|].
  by intros v (x & -> & Hx).
Qed.

Lemma totalFPS_is_ring_sum_pulse :
  real (totalFPS (updates maxFrames pulse))
  = Qcsum (real <$> resident (updates maxFrames pulse)).
Proof.
  destruct (totalFPS_is_ring_sum pulse) as (_ & _ & H).
  - vm_compute. reflexivity.
  - exact H.
Defined.

(** C4 as stated fails.  A frame with no time elapsed puts [+Infinity] in
    the ring; once it has been overwritten the running sum is [NaN] while
    every slot holds 30.  And with finite samples only, a slot that held
    [2^60] leaves the running sum at 0 while the slots sum to 32000. *)
Lemma totalFPS_after_hiccup :
  totalFPS (updates maxFrames hiccup) = nan ∧
  resident (updates maxFrames hiccup) = replicate 500 30 ∧
  jssum (resident (updates maxFrames hiccup)) = 15000 ∧
  totalFPS (updates maxFrames absorbed) = 0 ∧
  resident (updates maxFrames absorbed) = replicate 500 64 ∧
  jssum (resident (updates maxFrames absorbed)) = 32000.
Proof.
  split; [by vm_compute|]. split; [by vm_compute|]. split; [by vm_compute|].
  split; [by vm_compute|]. split; by vm_compute.
Qed.

(** C5: after every update the cursor is below [maxFrames] and is the old
    cursor plus one modulo [maxFrames]; [numFrames] is at most [maxFrames],
    never goes down and stays at [maxFrames] once there.  After [n]
    updates the cursor is [n mod maxFrames] and [numFrames] is
    [min n maxFrames]. *)
Theorem cursor_and_count (ds : list float) (d : float) :
  let s := updates maxFrames ds in
  let s' := update maxFrames d s in
  (frameCursor s' < maxFrames)%nat ∧
  frameCursor s' = ((frameCursor s + 1) mod maxFrames)%nat ∧
  (numFrames s' ≤ maxFrames)%nat ∧
  (numFrames s ≤ numFrames s')%nat ∧
  (numFrames s = maxFrames → numFrames s' = maxFrames) ∧
  frameCursor s = (length ds mod maxFrames)%nat ∧
  numFrames s = (length ds `min` maxFrames)%nat.
Proof.
  intros s s'.
  destruct (shaped_updates maxFrames maxFrames_pos ds) as (Hc & Hn & _).
  fold s in Hc, Hn. subst s'.
  rewrite update_cursor, update_frames, Hc, Hn.
  pose proof maxFrames_pos.
  pose proof (Nat.mod_upper_bound (length ds) maxFrames ltac:(lia)).
  pose proof (Nat.mod_upper_bound (S (length ds mod maxFrames)) maxFrames
                ltac:(lia)).
  rewrite Nat.add_1_r. repeat split; lia.
Qed.

(** ** The frame clock *)

(** C8: the first frame finds [previousTime = 0], so its delta is its own
    timestamp in seconds.  In every frame the clock sets [previousTime] to
    the timestamp in seconds and leaves the rotation and the counter
    alone; [deltaTime], its result, is assigned before it is read, so a
    frame does not depend on the delta of the frame before. *)
Theorem frame_clock (gl : Context) (sc : Scene) (now : float) (s : Loop) :
  let nowSeconds := now * 0.001 in
  previousTime start = 0 ∧
  (∃ first, result (render gl sc now start) = Returned first ∧
     deltaTime first = nowSeconds) ∧
  (∃ s', result (render gl sc now s) = Returned s' ∧
     previousTime s' = nowSeconds ∧
     deltaTime s' = nowSeconds - previousTime s) ∧
  tick nowSeconds s
  = {| previousTime := nowSeconds;
       cubeRotation := cubeRotation s;
       deltaTime := nowSeconds - previousTime s;
       frameTimes := frameTimes s; frameCursor := frameCursor s;
       numFrames := numFrames s; totalFPS := totalFPS s |} ∧
  ∀ stale,
    render gl sc now
      {| previousTime := previousTime s; cubeRotation := cubeRotation s;
         deltaTime := stale;
         frameTimes := frameTimes s; frameCursor := frameCursor s;
         numFrames := numFrames s; totalFPS := totalFPS s |}
    = render gl sc now s.
Proof.
  intros nowSeconds. split; [reflexivity|]. split; [|split; [|split]].
  - eexists. split; [apply render_result|]. apply sub_zero.
  - eexists. split; [apply render_result|]. split; reflexivity.
  - reflexivity.
  - reflexivity.
Qed.

(** ** The model-view matrix *)

Lemma drawScene_trace (gl : Context) (pi : ProgramInfo) (bufs : Buffers)
    (r : value) :
  trace (drawScene gl pi bufs r)
  = [ClearColor 0 0 0 1; ClearDepth 1;
     EnableDepthTest; DepthFuncLequal; Clear true;
     BindBuffer ARRAY_BUFFER (position bufs);
     VertexAttribPointer (vertexPosition pi) 3;
     EnableVertexAttribArray (vertexPosition pi);
     BindBuffer ARRAY_BUFFER (color bufs);
     VertexAttribPointer (vertexColor pi) 4;
     EnableVertexAttribArray (vertexColor pi);
     BindBuffer ELEMENT_ARRAY_BUFFER (indices bufs);
     UseProgram (piProgram pi);
     UniformMatrix4fv (projectionMatrix pi)
       (mat4.perspective ((45 * PI) / 180)
          (clientWidth gl / clientHeight gl) 0.1 100);
     UniformMatrix4fv (modelViewMatrixLoc pi) (modelViewMatrix r);
     DrawElements 36].
Proof. reflexivity. Qed.

Lemma drawScene_result (gl : Context) (pi : ProgramInfo) (bufs : Buffers)
    (r : value) :
  result (drawScene gl pi bufs r) = Returned tt.
Proof. reflexivity. Qed.

Ltac issued :=
  repeat first [apply list_elem_of_here | apply list_elem_of_further].

(** C7: for a rotation [r], the matrix [drawScene] uploads as model-view
    matrix is [Translate(0,0,-6) * RotateZ(r) * RotateY(0.7 r) *
    RotateX(0.3 r)]: built from the identity by right-multiplying the
    translation (whose first component the source writes as [-0.0]), then
    the Z, Y and X rotations, in whatever matrix monoid the transforms
    are read. *)
Theorem modelView_composition {M : Type} (mul : M → M → M) (one : M)
    (den : xform → M) (gl : Context) (pi : ProgramInfo) (bufs : Buffers)
    (r : float) :
  (∀ a b c, mul a (mul b c) = mul (mul a b) c) →
  (∀ a, mul one a = a) →
  let T := den (Translation (neg_zero, 0, -6)) in
  let Rz := den (Rotation (VNum r) (0, 0, 1)) in
  let Ry := den (Rotation (VNum (r * 0.7)) (0, 1, 0)) in
  let Rx := den (Rotation (VNum (r * 0.3)) (1, 0, 0)) in
  UniformMatrix4fv (modelViewMatrixLoc pi) (modelViewMatrix (VNum r))
    ∈ trace (drawScene gl pi bufs (VNum r)) ∧
  denote mul one den (modelViewMatrix (VNum r))
  = mul (mul (mul (mul one T) Rz) Ry) Rx ∧
  denote mul one den (modelViewMatrix (VNum r)) = mul (mul (mul T Rz) Ry) Rx ∧
  denote mul one den (modelViewMatrix (VNum r)) = mul T (mul Rz (mul Ry Rx)).
Proof.
  intros Hassoc Hone T Rz Ry Rx. split; [|split; [|split]].
  - rewrite drawScene_trace. issued.
  - reflexivity.
  - change (denote mul one den (modelViewMatrix (VNum r)))
      with (mul (mul (mul (mul one T) Rz) Ry) Rx).
    by rewrite Hone.
  - change (denote mul one den (modelViewMatrix (VNum r)))
      with (mul (mul (mul (mul one T) Rz) Ry) Rx).
    by rewrite Hone, !Hassoc.
Qed.

(** The theorem read in the monoid of transform sequences, at [r = 1]. *)
Lemma modelView_composition_sequence :
  denote app [] (λ x, [x]) (modelViewMatrix (VNum 1))
  = [Translation (neg_zero, 0, -6)]
    ++ [Rotation (VNum 1) (0, 0, 1)]
    ++ [Rotation (VNum (1 * 0.7)) (0, 1, 0)]
    ++ [Rotation (VNum (1 * 0.3)) (1, 0, 0)].
Proof.
  apply (modelView_composition (M:=list xform) app [] (λ x, [x])
           (canvas true true) (sceneInfo theScene) (sceneBuffers theScene) 1).
  - intros a b c. simpl. apply app_assoc.
  - intros a. reflexivity.
Defined.

(** ** Start-up: shaders, program and the first draw *)

Lemma rotationsFed_app (t u : list call) :
  rotationsFed (t ++ u) = rotationsFed t ++ rotationsFed u.
Proof. unfold rotationsFed. apply bind_app. Qed.

Lemma draws_app (t u : list call) : draws (t ++ u) = draws t || draws u.
Proof. unfold draws. apply existsb_app. Qed.

Lemma rotationsFed_drawScene (gl : Context) (pi : ProgramInfo)
    (bufs : Buffers) (r : value) :
  rotationsFed (trace (drawScene gl pi bufs r))
  = [r; times r 0.7; times r 0.3].
Proof. reflexivity. Qed.

Lemma startsUp_spec (gl : Context) :
  startsUp gl = true ↔
  webgl gl = true ∧
  compileStatus gl (mkShader VERTEX_SHADER vsSource2) = true ∧
  compileStatus gl (mkShader FRAGMENT_SHADER fsSource2) = true ∧
  linkStatus gl linked = true.
Proof. unfold startsUp. rewrite !andb_true_iff. tauto. Qed.

(** What [loadShader] does, by the compile status. *)
Lemma loadShader_spec (gl : Context) (type : shaderType) (src : source) :
  loadShader gl type src
  = if compileStatus gl (mkShader type src) then
      ([CreateShader type; ShaderSource (mkShader type src);
        CompileShader (mkShader type src)],
       Returned (Some (mkShader type src)))
    else
      ([CreateShader type; ShaderSource (mkShader type src);
        CompileShader (mkShader type src);
        Alert ("An error occurred compiling the shaders: "
               +:+ shaderInfoLog gl (mkShader type src));
        DeleteShader (mkShader type src)],
       Returned None).
Proof. unfold loadShader. by destruct (compileStatus gl _). Qed.

(** What [initShaderProgram] does: with a shader that did not compile it
    throws at the first [attachShader] that is handed [null]; otherwise
    it links, and returns the program or, after an alert, [null]. *)
Lemma initShaderProgram_spec (gl : Context) (vs fs : source) :
  let v := mkShader VERTEX_SHADER vs in
  let f := mkShader FRAGMENT_SHADER fs in
  let p := mkProgram [v; f] in
  initShaderProgram gl vs fs
  = (trace (loadShader gl VERTEX_SHADER vs)
     ++ trace (loadShader gl FRAGMENT_SHADER fs)
     ++ CreateProgram
        :: (if compileStatus gl v then
              AttachShader v
              :: (if compileStatus gl f then
                    AttachShader f :: LinkProgram p
                    :: (if linkStatus gl p then []
                        else [Alert ("Unable to initialize the shader program: "
                                     +:+ programInfoLog gl p)])
                  else [])
            else []),
     if compileStatus gl v && compileStatus gl f then
       if linkStatus gl p then Returned (Some p) else Returned None
     else Thrown).
Proof.
  intros v f p. subst v f p. unfold initShaderProgram.
  rewrite !loadShader_spec.
  destruct (compileStatus gl _), (compileStatus gl _); try reflexivity;
    cbn; destruct (linkStatus gl _); reflexivity.
Qed.

(** When everything works, [main] clears, builds the program, looks up the
    four slots, asks for the buffers, draws once with no rotation argument
    and requests the first frame. *)
Lemma main_started (gl : Context) :
  startsUp gl = true →
  main gl
  = ([ClearColor 0 0 0 1; Clear false]
     ++ trace (initShaderProgram gl vsSource2 fsSource2)
     ++ [InitBuffers]
     ++ trace (drawScene gl (infoFor linked) theBuffers VUndef)
     ++ [RequestAnimationFrame],
     Returned (Some (theScene, start))).
Proof.
  intros (Hw & Hv & Hf & Hl)%startsUp_spec.
  unfold main. rewrite Hw, initShaderProgram_spec, !loadShader_spec.
  fold linked. rewrite Hv, Hf, Hl. reflexivity.
Qed.

(** When a shader does not compile or the program does not link, [main]
    ends in the [TypeError] of the first call that is handed [null]. *)
Lemma main_stopped (gl : Context) :
  webgl gl = true → startsUp gl = false →
  main gl
  = ([ClearColor 0 0 0 1; Clear false]
     ++ trace (initShaderProgram gl vsSource2 fsSource2),
     Thrown).
Proof.
  intros Hw Hs. unfold startsUp in Hs. rewrite Hw in Hs. simpl in Hs.
  unfold main. rewrite Hw, initShaderProgram_spec, !loadShader_spec.
  fold linked. fold linked in Hs.
  destruct (compileStatus gl _), (compileStatus gl _); try reflexivity;
    destruct (linkStatus gl linked); try reflexivity; done.
Qed.

Lemma main_no_context (gl : Context) :
  webgl gl = false →
  main gl
  = ([Alert "Unable to initialize WebGL. Your browser may not support it."],
     Returned None).
Proof. intros H. unfold main. by rewrite H. Qed.

Lemma countCalls_app (p : call → bool) (t u : list call) :
  countCalls p (t ++ u) = (countCalls p t + countCalls p u)%nat.
Proof. unfold countCalls. by rewrite List.filter_app, length_app. Qed.

Lemma releasesProgram_app (t u : list call) :
  releasesProgram (t ++ u) = releasesProgram t || releasesProgram u.
Proof. unfold releasesProgram. apply existsb_app. Qed.

Lemma trace_pair {A} (t : list call) (r : outcome A) : trace (t, r) = t.
Proof. reflexivity. Qed.

Lemma result_pair {A} (t : list call) (r : outcome A) : result (t, r) = r.
Proof. reflexivity. Qed.

(** No path through [initShaderProgram] deletes a program or draws. *)
Lemma initShaderProgram_quiet (gl : Context) (vs fs : source) :
  releasesProgram (trace (initShaderProgram gl vs fs)) = false ∧
  draws (trace (initShaderProgram gl vs fs)) = false ∧
  existsb isRequest (trace (initShaderProgram gl vs fs)) = false ∧
  rotationsFed (trace (initShaderProgram gl vs fs)) = [] ∧
  shown (trace (initShaderProgram gl vs fs)) = [].
Proof.
  rewrite initShaderProgram_spec, !loadShader_spec.
  destruct (compileStatus gl _), (compileStatus gl _); try done;
    destruct (linkStatus gl _); done.
Qed.

(** C9, as the code has it.  A shader that does not compile is reported
    with its info log, deleted, and [null] is returned for it; but
    [initShaderProgram] does not test that result: it creates the program
    and hands [null] to [attachShader], which throws, so its caller
    receives no [null] but a [TypeError].  A program that does not link is
    reported with its info log and [null] is returned for it, but the
    program is not released: no path calls [deleteProgram].  In both cases
    [main] ends in a [TypeError] before it draws or requests a frame. *)
Theorem shader_failure_handling (gl : Context) :
  (∀ type src, compileStatus gl (mkShader type src) = false →
     loadShader gl type src
     = ([CreateShader type; ShaderSource (mkShader type src);
         CompileShader (mkShader type src);
         Alert ("An error occurred compiling the shaders: "
                +:+ shaderInfoLog gl (mkShader type src));
         DeleteShader (mkShader type src)],
        Returned None)) ∧
  (∀ vs fs,
     compileStatus gl (mkShader VERTEX_SHADER vs)
     && compileStatus gl (mkShader FRAGMENT_SHADER fs) = false →
     result (initShaderProgram gl vs fs) = Thrown ∧
     CreateProgram ∈ trace (initShaderProgram gl vs fs) ∧
     releasesProgram (trace (initShaderProgram gl vs fs)) = false) ∧
  (∀ vs fs,
     let p := mkProgram [mkShader VERTEX_SHADER vs; mkShader FRAGMENT_SHADER fs] in
     compileStatus gl (mkShader VERTEX_SHADER vs) = true →
     compileStatus gl (mkShader FRAGMENT_SHADER fs) = true →
     linkStatus gl p = false →
     result (initShaderProgram gl vs fs) = Returned None ∧
     CreateProgram ∈ trace (initShaderProgram gl vs fs) ∧
     LinkProgram p ∈ trace (initShaderProgram gl vs fs) ∧
     Alert ("Unable to initialize the shader program: " +:+ programInfoLog gl p)
       ∈ trace (initShaderProgram gl vs fs) ∧
     releasesProgram (trace (initShaderProgram gl vs fs)) = false) ∧
  (webgl gl = true → startsUp gl = false →
     result (main gl) = Thrown ∧
     releasesProgram (trace (main gl)) = false ∧
     draws (trace (main gl)) = false ∧
     existsb isRequest (trace (main gl)) = false).
Proof.
  split; [|split; [|split]].
  - intros type src H. by rewrite loadShader_spec, H.
  - intros vs fs H.
    destruct (initShaderProgram_quiet gl vs fs) as (Hq & _).
    split; [|split; [|done]].
    + by rewrite initShaderProgram_spec, result_pair, H.
    + rewrite initShaderProgram_spec, trace_pair.
      apply elem_of_app. right. apply elem_of_app. right. left.
  - intros vs fs p Hv Hf Hl.
    destruct (initShaderProgram_quiet gl vs fs) as (Hq & _).
    rewrite initShaderProgram_spec, !loadShader_spec. fold p.
    rewrite Hv, Hf, Hl, result_pair, !trace_pair. split; [done|]. simpl.
    split; [issued|]. split; [issued|]. split; [issued|done].
  - intros Hw Hs. rewrite (main_stopped gl Hw Hs).
    destruct (initShaderProgram_quiet gl vsSource2 fsSource2)
      as (Hq & Hd & Hr & _).
    rewrite result_pair, trace_pair, releasesProgram_app, draws_app, existsb_app.
    rewrite Hq, Hd, Hr. done.
Qed.

(** With shaders that compile and a program that does not link,
    [initShaderProgram] returns [null] and no call releases the program;
    [main] then stops at [getAttribLocation]. *)
Lemma link_failure_leaks_program :
  result (initShaderProgram (canvas true false) vsSource2 fsSource2)
  = Returned None ∧
  CreateProgram ∈ trace (initShaderProgram (canvas true false) vsSource2 fsSource2) ∧
  releasesProgram (trace (initShaderProgram (canvas true false) vsSource2 fsSource2))
  = false ∧
  result (main (canvas true false)) = Thrown.
Proof.
  destruct (shader_failure_handling (canvas true false)) as (_ & _ & L & M).
  destruct (L vsSource2 fsSource2) as (L1 & L2 & _ & _ & L5); [reflexivity..|].
  destruct M as (M1 & _); [reflexivity..|].
  exact (conj L1 (conj L2 (conj L5 M1))).
Defined.

Lemma render_rotation (gl : Context) (sc : Scene) (now : float) (s : Loop) :
  cubeRotation (returned s (render gl sc now s))
  = cubeRotation s + (now * 0.001 - previousTime s).
Proof. reflexivity. Qed.

Lemma rotationsFed_render (gl : Context) (sc : Scene) (now : float) (s : Loop) :
  rotationsFed (trace (render gl sc now s)) = drawnAngles (cubeRotation s).
Proof. by rewrite render_trace, rotationsFed_app, rotationsFed_drawScene. Qed.

Lemma main_draws (gl : Context) : draws (trace (main gl)) = startsUp gl.
Proof.
  destruct (startsUp gl) eqn:Hs.
  - rewrite (main_started gl Hs), trace_pair.
    rewrite !draws_app, drawScene_trace.
    destruct (draws (trace (initShaderProgram _ _ _))); reflexivity.
  - destruct (webgl gl) eqn:Hw.
    + rewrite (main_stopped gl Hw Hs), trace_pair, draws_app.
      by destruct (initShaderProgram_quiet gl vsSource2 fsSource2) as (_ & -> & _).
    + by rewrite (main_no_context gl Hw).
Qed.

(** C10: the draw [main] issues before the loop starts calls [drawScene]
    with no rotation argument: [cubeRotation] is [undefined], so the first
    [rotate] is handed [undefined] and the other two [undefined * 0.7] and
    [undefined * 0.3], which are [NaN]; none is handed a finite number.
    Every draw of [render] passes the rotation accumulated by the frames
    before. *)
Theorem startup_draw_has_no_rotation (gl : Context) (sc : Scene) (now : float)
    (s : Loop) :
  draws (trace (main gl)) = true →
  (∃ pre pi bufs,
     trace (main gl)
     = pre ++ trace (drawScene gl pi bufs VUndef) ++ [RequestAnimationFrame] ∧
     draws pre = false) ∧
  rotationsFed (trace (main gl)) = [VUndef; VNum nan; VNum nan] ∧
  rotationsFed (trace (render gl sc now s))
  = [VNum (cubeRotation s); VNum (cubeRotation s * 0.7);
     VNum (cubeRotation s * 0.3)] ∧
  ∃ s', result (render gl sc now s) = Returned s' ∧
    cubeRotation s' = cubeRotation s + deltaTime s'.
Proof.
  rewrite main_draws. intros H. rewrite (main_started gl H).
  destruct (initShaderProgram_quiet gl vsSource2 fsSource2)
    as (_ & Hd & _ & Hr & _).
  rewrite !trace_pair.
  split; [|split; [|split]].
  - eexists _, _, _. split.
    + rewrite (app_assoc _ [InitBuffers]), (app_assoc [_; _]). reflexivity.
    + rewrite !draws_app, Hd. reflexivity.
  - rewrite !rotationsFed_app, Hr, rotationsFed_drawScene. reflexivity.
  - apply rotationsFed_render.
  - eexists. split; [apply render_result|reflexivity].
Qed.

Lemma startup_draw_has_no_rotation_demo :
  rotationsFed (trace (main (canvas true true))) = [VUndef; VNum nan; VNum nan].
Proof.
  apply (startup_draw_has_no_rotation (canvas true true) theScene 16 start).
  reflexivity.
Defined.

(** ** Rounding to nearest, ties to even *)

Section Rounding.
Local Open Scope Z_scope.

Lemma digits2_size (p : positive) : digits2_pos p = Pos.size p.
Proof. induction p as [p IH|p IH|]; simpl; by rewrite ?IH. Qed.

Lemma dig_bounds (p : positive) : 2 ^ (dig p - 1) ≤ Z.pos p < 2 ^ dig p.
Proof.
  unfold dig. rewrite digits2_size.
  pose proof (Pos.size_gt p) as Hgt. pose proof (Pos.size_le p) as Hle.
  apply Pos2Z.pos_lt_pos in Hgt. apply Pos2Z.pos_le_pos in Hle.
  rewrite Pos2Z.inj_pow in Hgt, Hle.
  replace (Z.pos (Pos.size p)) with (Z.succ (Z.pos (Pos.size p) - 1)) in Hle at 1
    by lia.
  rewrite Z.pow_succ_r in Hle by lia. lia.
Qed.

Lemma dig_pos (p : positive) : 1 ≤ dig p.
Proof. unfold dig. lia. Qed.

Lemma dig_unique (p : positive) (k : Z) :
  2 ^ (k - 1) ≤ Z.pos p < 2 ^ k → dig p = k.
Proof.
  intros [Hlo Hhi]. destruct (dig_bounds p) as [Dlo Dhi].
  pose proof (dig_pos p).
  assert (0 ≤ k) as Hk.
  { destruct (Z.lt_ge_cases k 0) as [Hn|]; [|done].
    rewrite (Z.pow_neg_r 2 k) in Hhi by done. lia. }
  destruct (Z.lt_trichotomy (dig p) k) as [Hlt|[Heq|Hgt]]; [|done|].
  - assert (2 ^ dig p ≤ 2 ^ (k - 1)) by (apply Z.pow_le_mono_r; lia). lia.
  - assert (2 ^ k ≤ 2 ^ (dig p - 1)) by (apply Z.pow_le_mono_r; lia). lia.
Qed.

Lemma roundUp_cases (q r n : Z) : roundUp q r n = 0 ∨ roundUp q r n = 1.
Proof. unfold roundUp. destruct (_ || _); auto. Qed.

Lemma RNE_0 (M : Z) : RNE M 0 = M.
Proof.
  unfold RNE, roundUp. rewrite Z.pow_0_r, Z.div_1_r, Z.mod_1_r. simpl. lia.
Qed.

Lemma RNE_bounds (M n : Z) : 0 ≤ n → M / 2 ^ n ≤ RNE M n ≤ M / 2 ^ n + 1.
Proof. intros _. unfold RNE. destruct (roundUp_cases (M / 2 ^ n) (M mod 2 ^ n) n); lia. Qed.

(** Rounding is monotone, whatever the two scales. *)
Lemma RNE_mono (M1 n1 M2 n2 : Z) :
  0 ≤ n1 → 0 ≤ n2 → 0 ≤ M1 →
  M1 * 2 ^ n2 ≤ M2 * 2 ^ n1 → RNE M1 n1 ≤ RNE M2 n2.
Proof.
  intros Hn1 Hn2 HM1 Hle.
  pose proof (Z.pow_pos_nonneg 2 n1 ltac:(lia) Hn1) as HA.
  pose proof (Z.pow_pos_nonneg 2 n2 ltac:(lia) Hn2) as HB.
  unfold RNE.
  pose proof (Z.div_mod M1 (2 ^ n1) ltac:(lia)) as D1.
  pose proof (Z.div_mod M2 (2 ^ n2) ltac:(lia)) as D2.
  pose proof (Z.mod_pos_bound M1 (2 ^ n1) HA) as R1.
  pose proof (Z.mod_pos_bound M2 (2 ^ n2) HB) as R2.
  set (A := 2 ^ n1) in *. set (B := 2 ^ n2) in *.
  set (q1 := M1 / A) in *. set (q2 := M2 / B) in *.
  set (r1 := M1 mod A) in *. set (r2 := M2 mod B) in *.
  assert (q1 ≤ q2) as Hq.
  { destruct (Z.le_gt_cases q1 q2) as [|Hgt]; [done|]. exfalso.
    assert (0 < A * B) by nia.
    assert (A * B * (q2 + 1) ≤ A * B * q1) by (apply Z.mul_le_mono_nonneg_l; lia).
    assert (r2 * A < B * A) by (apply Z.mul_lt_mono_pos_r; lia).
    assert (0 ≤ r1 * B) by nia.
    rewrite D1, D2 in Hle. nia. }
  destruct (roundUp_cases q1 r1 n1) as [U1|U1]; rewrite U1;
    destruct (roundUp_cases q2 r2 n2) as [U2|U2]; rewrite U2; try lia.
  destruct (Z.eq_dec q1 q2) as [Heq|]; [|lia]. exfalso.
  assert (r1 * B ≤ r2 * A) as Hr by (rewrite D1, D2, Heq in Hle; nia).
  unfold roundUp in U1, U2. fold A in U1. fold B in U2.
  destruct ((A <? 2 * r1) || ((2 * r1 =? A) && Z.odd q1)) eqn:E1; [|done].
  destruct ((B <? 2 * r2) || ((2 * r2 =? B) && Z.odd q2)) eqn:E2; [done|].
  apply orb_false_iff in E2 as [E2a E2b]. apply Z.ltb_ge in E2a.
  apply orb_true_iff in E1 as [E1|E1].
  - apply Z.ltb_lt in E1. nia.
  - apply andb_true_iff in E1 as [E1 O1]. apply Z.eqb_eq in E1.
    rewrite Heq in O1. rewrite O1, andb_true_r in E2b. apply Z.eqb_neq in E2b.
    nia.
Qed.
End Rounding.

Section Shifting.
Local Open Scope Z_scope.

Lemma iter_pos_nat {A} (f : A → A) (n : positive) (x : A) :
  iter_pos f n x = Nat.iter (Pos.to_nat n) f x.
Proof.
  revert x. induction n as [n IH|n IH|]; intros x; cbn [iter_pos].
  - rewrite !IH, <- Nat.iter_add, <- Nat.iter_succ_r, Pos2Nat.inj_xI.
    f_equal. lia.
  - rewrite !IH, <- Nat.iter_add, Pos2Nat.inj_xO. f_equal. lia.
  - reflexivity.
Qed.

Lemma shr_1_spec (m : Z) (r s : bool) :
  0 ≤ m →
  shr_1 {| shr_m := m; shr_r := r; shr_s := s |}
  = {| shr_m := m / 2; shr_r := Z.odd m; shr_s := r || s |}.
Proof.
  intros Hm. rewrite <- Z.div2_div.
  destruct m as [|[p|p|]|p]; try reflexivity; lia.
Qed.

Lemma shr_1_iter (M : Z) (k : nat) :
  0 ≤ M →
  Nat.iter (S k) shr_1 {| shr_m := M; shr_r := false; shr_s := false |}
  = shifted M k.
Proof.
  intros HM. induction k as [|k IH].
  - rewrite Nat.iter_succ. change (Nat.iter 0 shr_1 ?x) with x.
    rewrite shr_1_spec by done. unfold shifted.
    change (2 ^ Z.of_nat 1) with 2. change (2 ^ Z.of_nat 0) with 1.
    by rewrite Z.div_1_r, Z.mod_1_r.
  - rewrite Nat.iter_succ, IH. unfold shifted.
    pose proof (Z.pow_pos_nonneg 2 (Z.of_nat k) ltac:(lia) ltac:(lia)) as HP.
    rewrite shr_1_spec by (apply Z.div_pos; lia).
    replace (2 ^ Z.of_nat (S (S k))) with (2 ^ Z.of_nat (S k) * 2)
      by (rewrite (Nat2Z.inj_succ (S k)), Z.pow_succ_r; lia).
    rewrite Z.div_div by lia. f_equal.
    replace (2 ^ Z.of_nat (S k)) with (2 ^ Z.of_nat k * 2)
      by (rewrite (Nat2Z.inj_succ k), Z.pow_succ_r; lia).
    rewrite Z.rem_mul_r by lia.
    set (P := 2 ^ Z.of_nat k) in *.
    pose proof (Z.mod_pos_bound M P HP) as Hl.
    rewrite Zmod_odd.
    destruct (Z.odd (M / P)); destruct (Z.eqb_spec (M mod P) 0) as [E|E];
      simpl; symmetry; first [apply Z.eqb_eq; lia | apply Z.eqb_neq; lia | idtac].
    + apply negb_true_iff, Z.eqb_neq. lia.
    + apply negb_true_iff, Z.eqb_neq. lia.
    + apply negb_false_iff, Z.eqb_eq. lia.
    + apply negb_true_iff, Z.eqb_neq. lia.
Qed.

(** Rounding the shifted record gives [RNE]. *)
Lemma round_shifted (M : Z) (k : nat) :
  0 ≤ M →
  round_nearest_even (shr_m (shifted M k)) (loc_of_shr_record (shifted M k))
  = RNE M (Z.of_nat (S k)).
Proof.
  intros HM. unfold shifted, RNE, roundUp. cbn [shr_m loc_of_shr_record].
  pose proof (Z.pow_pos_nonneg 2 (Z.of_nat k) ltac:(lia) ltac:(lia)) as HP.
  replace (2 ^ Z.of_nat (S k)) with (2 ^ Z.of_nat k * 2)
    by (rewrite (Nat2Z.inj_succ k), Z.pow_succ_r; lia).
  rewrite Z.rem_mul_r by lia. rewrite <- Z.div_div by lia.
  set (P := 2 ^ Z.of_nat k) in *.
  pose proof (Z.mod_pos_bound M P HP) as Hl.
  rewrite (Zmod_odd (M / P)).
  set (q := M / P / 2). set (low := M mod P) in *.
  destruct (Z.odd (M / P)); destruct (Z.eqb_spec low 0) as [E|E]; simpl negb;
    cbn [round_nearest_even].
  - replace (P * 2 <? 2 * (low + P * 1)) with false by (symmetry; apply Z.ltb_ge; lia).
    replace (2 * (low + P * 1) =? P * 2) with true by (symmetry; apply Z.eqb_eq; lia).
    simpl. rewrite <- Z.negb_odd. destruct (Z.odd q); simpl; lia.
  - replace (P * 2 <? 2 * (low + P * 1)) with true by (symmetry; apply Z.ltb_lt; lia).
    simpl. lia.
  - replace (P * 2 <? 2 * (low + P * 0)) with false by (symmetry; apply Z.ltb_ge; lia).
    replace (2 * (low + P * 0) =? P * 2) with false by (symmetry; apply Z.eqb_neq; lia).
    simpl. lia.
  - replace (P * 2 <? 2 * (low + P * 0)) with false by (symmetry; apply Z.ltb_ge; lia).
    replace (2 * (low + P * 0) =? P * 2) with false by (symmetry; apply Z.eqb_neq; lia).
    simpl. lia.
Qed.
End Shifting.

Section BinaryRound.
Local Open Scope Z_scope.

Lemma fexp_spec (x : Z) : fexp prec emax x = Z.max (x - 53) (-1074).
Proof. reflexivity. Qed.

(** What [binary_round_aux] computes for a positive mantissa that is not
    below its exponent. *)
Lemma binary_round_aux_pack (m : positive) (e : Z) :
  let E := fexp prec emax (dig m + e) in
  e ≤ E →
  binary_round_aux prec emax false (Z.pos m) e loc_Exact
  = pack (RNE (Z.pos m) (E - e)) E.
Proof.
  intros E HE. pose proof (fexp_spec (dig m + e)) as HfE. fold E in HfE.
  destruct (dig_bounds m) as [Dlo Dhi]. pose proof (dig_pos m) as Dpos.
  unfold binary_round_aux, shr_fexp.
  change (Zdigits2 (Z.pos m)) with (dig m). fold E.
  cbn [shr_record_of_loc]. unfold shr at 1.
  destruct (E - e) as [|p|p] eqn:Hn; [| |lia].
  - (* nothing to shift *)
    assert (E = e) as HEe by lia.
    cbn [shr_m loc_of_shr_record round_nearest_even].
    change (Zdigits2 (Z.pos m)) with (dig m). fold E. rewrite Hn.
    cbn [shr_record_of_loc shr shr_m]. rewrite RNE_0, HEe. unfold pack.
    assert (Z.pos m < 2 ^ 53) as Hlt.
    { assert (2 ^ dig m ≤ 2 ^ 53) by (apply Z.pow_le_mono_r; lia). lia. }
    replace (Z.pos m =? 2 ^ 53) with false by (symmetry; apply Z.eqb_neq; lia).
    reflexivity.
  - (* a shift by [p] places *)
    rewrite iter_pos_nat.
    destruct (Pos2Nat.is_succ p) as [k Hk]. rewrite Hk.
    rewrite shr_1_iter by lia. rewrite round_shifted by lia.
    replace (Z.of_nat (S k)) with (Z.pos p) by lia.
    replace (e + Z.pos p) with E by lia.
    pose proof (RNE_bounds (Z.pos m) (Z.pos p) ltac:(lia)) as [Rlo Rhi].
    assert (0 ≤ Z.pos m / 2 ^ Z.pos p < 2 ^ 53) as [Qlo Qhi].
    { split; [apply Z.div_pos; lia|].
      apply Z.div_lt_upper_bound; [lia|]. rewrite <- Z.pow_add_r by lia.
      assert (2 ^ dig m ≤ 2 ^ (Z.pos p + 53)) by (apply Z.pow_le_mono_r; lia).
      lia. }
    set (m1 := RNE (Z.pos m) (Z.pos p)) in *.
    unfold shr_fexp. rewrite fexp_spec.
    destruct m1 as [|p1|p1] eqn:Hm1; [| |lia].
    + (* rounded to zero *)
      cbn [Zdigits2 shr_record_of_loc].
      replace (Z.max (0 + E - 53) (-1074) - E) with (Z.max (- 53) (-1074 - E)) by lia.
      unfold shr. destruct (Z.max (-53) (-1074 - E)) eqn:Hz; try reflexivity. lia.
    + change (Zdigits2 (Z.pos p1)) with (dig p1).
      destruct (dig_bounds p1) as [D1lo D1hi]. pose proof (dig_pos p1).
      cbn [shr_record_of_loc]. unfold pack.
      destruct (Z.eqb_spec (Z.pos p1) (2 ^ 53)) as [Htop|Hne].
      * (* the mantissa overflowed: one more shift *)
        assert (p1 = (2 ^ 53)%positive) as -> by lia.
        replace (Z.max (dig (2 ^ 53) + E - 53) (-1074) - E) with 1
          by (change (dig (2 ^ 53)) with 54; lia).
        reflexivity.
      * assert (dig p1 ≤ 53).
        { destruct (Z.le_gt_cases (dig p1) 53); [done|].
          assert (2 ^ 53 ≤ 2 ^ (dig p1 - 1)) by (apply Z.pow_le_mono_r; lia).
          lia. }
        unfold shr.
        destruct (Z.max (dig p1 + E - 53) (-1074) - E) eqn:Hz; try reflexivity.
        lia.
Qed.

Lemma RNE_top (m : positive) (e : Z) :
  let E := fexp prec emax (dig m + e) in
  e ≤ E →
  0 ≤ RNE (Z.pos m) (E - e) ≤ 2 ^ 53 ∧
  (-1074 < E → 2 ^ 52 ≤ RNE (Z.pos m) (E - e)).
Proof.
  intros E HE. pose proof (fexp_spec (dig m + e)) as HfE. fold E in HfE.
  destruct (dig_bounds m) as [Dlo Dhi]. pose proof (dig_pos m) as Dpos.
  pose proof (RNE_bounds (Z.pos m) (E - e) ltac:(lia)) as [Rlo Rhi].
  pose proof (Z.pow_pos_nonneg 2 (E - e) ltac:(lia) ltac:(lia)) as HP.
  assert (0 ≤ Z.pos m / 2 ^ (E - e) < 2 ^ 53) as [Qlo Qhi].
  { split; [apply Z.div_pos; lia|].
    apply Z.div_lt_upper_bound; [lia|]. rewrite <- Z.pow_add_r by lia.
    assert (2 ^ dig m ≤ 2 ^ (E - e + 53)) by (apply Z.pow_le_mono_r; lia).
    lia. }
  split; [lia|]. intros Hnorm.
  assert (E - e = dig m - 53) as Hn by lia.
  assert (2 ^ 52 ≤ Z.pos m / 2 ^ (E - e)); [|lia].
  apply Z.div_le_lower_bound; [lia|]. rewrite <- Z.pow_add_r by lia.
  replace (E - e + 52) with (dig m - 1) by lia. done.
Qed.
End BinaryRound.

Section Ordering.
Local Open Scope Z_scope.

Lemma SFleb_finite (m1 m2 : positive) (e1 e2 : Z) :
  SFleb (S754_finite false m1 e1) (S754_finite false m2 e2)
  = (e1 <? e2) || ((e1 =? e2) && (Z.pos m1 <=? Z.pos m2)).
Proof.
  unfold SFleb, SFcompare. rewrite Pos.compare_cont_spec. simpl Pos.switch_Eq.
  destruct (Z.compare_spec e1 e2) as [->|H|H].
  - rewrite Z.ltb_irrefl, Z.eqb_refl. simpl.
    unfold Z.leb. simpl. by destruct (m1 ?= m2)%positive.
  - by apply Z.ltb_lt in H as ->.
  - replace (e1 <? e2) with false by (symmetry; apply Z.ltb_ge; lia).
    replace (e1 =? e2) with false by (symmetry; apply Z.eqb_neq; lia).
    reflexivity.
Qed.

Lemma pack_nonneg (a E : Z) : SFleb (S754_zero false) (pack a E) = true.
Proof.
  unfold pack. destruct a as [|p|p]; try reflexivity.
  destruct (_ =? _); [destruct (_ <=? _)|destruct (_ <=? _)]; reflexivity.
Qed.

Lemma pack_mono_same (a b E : Z) :
  0 ≤ a → a ≤ b → b ≤ 2 ^ 53 → SFleb (pack a E) (pack b E) = true.
Proof.
  intros Ha Hab Hb. destruct a as [|p|p]; [apply pack_nonneg| |lia].
  destruct b as [|q|q]; [lia| |lia]. unfold pack.
  destruct (Z.eqb_spec (Z.pos p) (2 ^ 53)) as [Hp|Hp];
    destruct (Z.eqb_spec (Z.pos q) (2 ^ 53)) as [Hq|Hq]; try lia;
    destruct (Z.leb_spec (E + 1) 971); destruct (Z.leb_spec E 971);
    try lia; try reflexivity; rewrite SFleb_finite.
  - rewrite Z.ltb_irrefl, Z.eqb_refl. done.
  - replace (E <? E + 1) with true by (symmetry; apply Z.ltb_lt; lia). done.
  - rewrite Z.ltb_irrefl, Z.eqb_refl. simpl. apply Z.leb_le. lia.
  - rewrite Z.ltb_irrefl, Z.eqb_refl. simpl. apply Z.leb_le. lia.
Qed.

Lemma pack_mono_exp (a b E1 E2 : Z) :
  0 ≤ a ≤ 2 ^ 53 → 2 ^ 52 ≤ b ≤ 2 ^ 53 → E1 < E2 →
  SFleb (pack a E1) (pack b E2) = true.
Proof.
  intros Ha Hb HE. destruct a as [|p|p]; [apply pack_nonneg| |lia].
  destruct b as [|q|q]; [lia| |lia]. unfold pack.
  destruct (Z.eqb_spec (Z.pos p) (2 ^ 53)) as [Hp|Hp];
    destruct (Z.eqb_spec (Z.pos q) (2 ^ 53)) as [Hq|Hq];
    destruct (Z.leb_spec (E1 + 1) 971); destruct (Z.leb_spec E1 971);
    destruct (Z.leb_spec (E2 + 1) 971); destruct (Z.leb_spec E2 971);
    try lia; try reflexivity; rewrite SFleb_finite;
    try (replace (_ <? _) with true by (symmetry; apply Z.ltb_lt; lia); done).
  all: destruct (Z.ltb_spec (E1 + 1) E2); [done|].
  all: replace (E1 + 1 =? E2) with true by (symmetry; apply Z.eqb_eq; lia).
  all: simpl; apply Z.leb_le; change (Z.pos (2 ^ 52)) with (2 ^ 52); lia.
Qed.

(** Rounding is monotone: of two positive numbers [m1 * 2^e1 <= m2 * 2^e2]
    the first does not round above the second. *)
Lemma binary_round_aux_mono (m1 m2 : positive) (e1 e2 L : Z) :
  e1 ≤ fexp prec emax (dig m1 + e1) →
  e2 ≤ fexp prec emax (dig m2 + e2) →
  L ≤ e1 → L ≤ e2 →
  Z.pos m1 * 2 ^ (e1 - L) ≤ Z.pos m2 * 2 ^ (e2 - L) →
  SFleb (binary_round_aux prec emax false (Z.pos m1) e1 loc_Exact)
        (binary_round_aux prec emax false (Z.pos m2) e2 loc_Exact) = true.
Proof.
  intros H1 H2 HL1 HL2 Hv.
  rewrite !binary_round_aux_pack by done.
  destruct (RNE_top m1 e1 H1) as [T1 _]. destruct (RNE_top m2 e2 H2) as [T2 N2].
  rewrite !fexp_spec in *.
  destruct (dig_bounds m1) as [D1lo D1hi]. destruct (dig_bounds m2) as [D2lo D2hi].
  pose proof (dig_pos m1). pose proof (dig_pos m2).
  assert (dig m1 + e1 ≤ dig m2 + e2) as Hmag.
  { destruct (Z.le_gt_cases (dig m1 + e1) (dig m2 + e2)) as [|Hgt]; [done|].
    exfalso.
    assert (2 ^ (dig m2 + (e2 - L)) ≤ 2 ^ (dig m1 - 1 + (e1 - L)))
      by (apply Z.pow_le_mono_r; lia).
    rewrite !Z.pow_add_r in * by lia.
    pose proof (Z.pow_pos_nonneg 2 (e1 - L) ltac:(lia) ltac:(lia)).
    pose proof (Z.pow_pos_nonneg 2 (e2 - L) ltac:(lia) ltac:(lia)).
    nia. }
  set (E1 := Z.max (dig m1 + e1 - 53) (-1074)) in *.
  set (E2 := Z.max (dig m2 + e2 - 53) (-1074)) in *.
  assert (E1 ≤ E2) as HE by lia.
  destruct (Z.eq_dec E1 E2) as [Heq|Hne].
  - rewrite <- Heq in *. apply pack_mono_same; [lia| |lia].
    apply RNE_mono; [lia..|].
    pose proof (Z.pow_pos_nonneg 2 (e1 - L) ltac:(lia) ltac:(lia)) as PA.
    pose proof (Z.pow_pos_nonneg 2 (e2 - L) ltac:(lia) ltac:(lia)) as PB.
    pose proof (Z.pow_pos_nonneg 2 (E1 - e1) ltac:(lia) ltac:(lia)) as PX.
    pose proof (Z.pow_pos_nonneg 2 (E1 - e2) ltac:(lia) ltac:(lia)) as PY.
    assert (2 ^ (e1 - L) * 2 ^ (E1 - e1) = 2 ^ (e2 - L) * 2 ^ (E1 - e2)) as HC.
    { rewrite <- !Z.pow_add_r by lia. f_equal. lia. }
    set (A := 2 ^ (e1 - L)) in *. set (B := 2 ^ (e2 - L)) in *.
    set (X := 2 ^ (E1 - e1)) in *. set (Y := 2 ^ (E1 - e2)) in *.
    assert (0 < A * X) as HAX by nia.
    apply (Z.mul_le_mono_pos_r _ _ (A * X) HAX).
    replace (Z.pos m1 * Y * (A * X)) with ((Z.pos m1 * A) * (X * Y)) by ring.
    replace (Z.pos m2 * X * (A * X)) with ((Z.pos m2 * B) * (X * Y))
      by (rewrite HC; ring).
    apply Z.mul_le_mono_nonneg_r; [nia|done].
  - apply pack_mono_exp; [lia| |lia]. split; [apply N2; lia|lia].
Qed.
End Ordering.

Section Operations.
Local Open Scope Z_scope.

Lemma valid_finite (s : bool) (m : positive) (e : Z) :
  valid_binary (S754_finite s m e) = true →
  fexp prec emax (dig m + e) = e ∧ -1074 ≤ e ≤ 971 ∧ dig m ≤ 53 ∧
  (-1074 < e → dig m = 53).
Proof.
  unfold SpecFloat.valid_binary, bounded, canonical_mantissa. fold (dig m).
  intros [Hc Hb]%andb_true_iff. apply Z.eqb_eq in Hc. apply Z.leb_le in Hb.
  change (emax - prec) with 971 in Hb.
  split; [done|]. rewrite fexp_spec in Hc. lia.
Qed.

(** A valid float is the rounding of its own mantissa and exponent. *)
Lemma binary_round_aux_valid (m : positive) (e : Z) :
  valid_binary (S754_finite false m e) = true →
  binary_round_aux prec emax false (Z.pos m) e loc_Exact = S754_finite false m e.
Proof.
  intros (Hc & He & Hd & _)%valid_finite.
  rewrite binary_round_aux_pack by lia. rewrite Hc, Z.sub_diag, RNE_0.
  destruct (dig_bounds m) as [_ Dhi].
  assert (2 ^ dig m ≤ 2 ^ 53) by (apply Z.pow_le_mono_r; lia).
  unfold pack.
  replace (Z.pos m =? 2 ^ 53) with false by (symmetry; apply Z.eqb_neq; lia).
  by replace (e <=? 971) with true by (symmetry; apply Z.leb_le; lia).
Qed.

(** The order of two valid positive floats is the order of their values. *)
Lemma SFleb_value (m1 m2 : positive) (e1 e2 L : Z) :
  valid_binary (S754_finite false m1 e1) = true →
  valid_binary (S754_finite false m2 e2) = true →
  L ≤ e1 → L ≤ e2 →
  SFleb (S754_finite false m1 e1) (S754_finite false m2 e2) = true →
  Z.pos m1 * 2 ^ (e1 - L) ≤ Z.pos m2 * 2 ^ (e2 - L).
Proof.
  intros (_ & He1 & Hd1 & _)%valid_finite (_ & He2 & Hd2 & Hn2)%valid_finite.
  intros HL1 HL2. rewrite SFleb_finite.
  intros [Hlt|[Heq Hle]%andb_true_iff]%orb_true_iff.
  - apply Z.ltb_lt in Hlt.
    destruct (dig_bounds m1) as [_ D1]. destruct (dig_bounds m2) as [D2 _].
    rewrite Hn2 in D2 by lia. change (2 ^ (53 - 1)) with (2 ^ 52) in D2.
    assert (2 ^ dig m1 ≤ 2 ^ 53) by (apply Z.pow_le_mono_r; lia).
    assert (2 ^ (53 + (e1 - L)) ≤ 2 ^ (52 + (e2 - L)))
      by (apply Z.pow_le_mono_r; lia).
    rewrite !Z.pow_add_r in * by lia.
    pose proof (Z.pow_pos_nonneg 2 (e1 - L) ltac:(lia) ltac:(lia)).
    pose proof (Z.pow_pos_nonneg 2 (e2 - L) ltac:(lia) ltac:(lia)).
    nia.
  - apply Z.eqb_eq in Heq as ->. apply Z.leb_le in Hle.
    apply Z.mul_le_mono_nonneg_r; [|done].
    apply Z.lt_le_incl, Z.pow_pos_nonneg; lia.
Qed.

Lemma shl_align_spec (m : positive) (e e' : Z) :
  let r := shl_align m e e' in
  r.2 = Z.min e e' ∧ Z.pos r.1 = Z.pos m * 2 ^ (e - r.2).
Proof.
  unfold shl_align. destruct (e' - e) as [|d|d] eqn:Hd; cbn [fst snd].
  - replace (Z.min e e') with e by lia. rewrite Z.sub_diag. lia.
  - replace (Z.min e e') with e by lia. rewrite Z.sub_diag. lia.
  - replace (Z.min e e') with e' by lia.
    replace (e - e') with (Z.pos d) by lia. split; [done|].
    change (Pos.iter xO m d) with (shift_pos d m).
    rewrite shift_pos_correct. change (Z.pow_pos 2 d) with (2 ^ Z.pos d). lia.
Qed.

(** What [binary_round] computes: it first brings the mantissa to the
    exponent it will be rounded at, which changes neither the value nor
    the result. *)
Lemma binary_round_aligned (m : positive) (e : Z) :
  ∃ (mz : positive) (ez : Z),
    binary_round prec emax false m e
    = binary_round_aux prec emax false (Z.pos mz) ez loc_Exact ∧
    ez ≤ e ∧ Z.pos mz = Z.pos m * 2 ^ (e - ez) ∧
    ez ≤ fexp prec emax (dig mz + ez).
Proof.
  unfold binary_round. fold (dig m).
  pose proof (shl_align_spec m e (fexp prec emax (dig m + e))) as [Hez Hmz].
  destruct (shl_align m e (fexp prec emax (dig m + e))) as [mz ez].
  cbn [fst snd] in Hez, Hmz. exists mz, ez. split; [done|].
  split; [lia|]. split; [done|].
  assert (dig mz = dig m + (e - ez)) as Hd.
  { apply dig_unique. destruct (dig_bounds m) as [Dlo Dhi].
    pose proof (dig_pos m).
    pose proof (Z.pow_pos_nonneg 2 (e - ez) ltac:(lia) ltac:(lia)).
    rewrite Hmz. replace (dig m + (e - ez) - 1) with (dig m - 1 + (e - ez)) by lia.
    rewrite !Z.pow_add_r by lia. nia. }
  rewrite Hd. replace (dig m + (e - ez) + ez) with (dig m + e) by lia. lia.
Qed.

Lemma binary_round_nonneg (m : positive) (e : Z) :
  SFleb (S754_zero false) (binary_round prec emax false m e) = true.
Proof.
  destruct (binary_round_aligned m e) as (mz & ez & -> & _ & _ & Ha).
  rewrite binary_round_aux_pack by done. apply pack_nonneg.
Qed.

(** Adding a non-negative number does not make a non-negative number
    smaller. *)
Lemma SFadd_le (x y : spec_float) :
  valid_binary x = true → valid_binary y = true →
  SFleb (S754_zero false) x = true → SFleb (S754_zero false) y = true →
  SFleb x (SFadd prec emax x y) = true ∧
  SFleb (S754_zero false) (SFadd prec emax x y) = true.
Proof.
  intros Vx Vy Hx Hy.
  destruct x as [sx|[]| |[] mx ex]; try done;
    destruct y as [sy|[]| |[] my ey]; try done;
    try (by destruct sx); try (by destruct sx, sy).
  - (* finite + zero *) cbn [SFadd]. split; [|done].
    rewrite SFleb_finite, Z.ltb_irrefl, Z.eqb_refl. simpl. apply Z.leb_refl.
  - (* finite + finite *)
    cbn [SFadd cond_Zopp].
    pose proof (shl_align_spec mx ex (Z.min ex ey)) as [Ex Mx].
    pose proof (shl_align_spec my ey (Z.min ex ey)) as [Ey My].
    destruct (shl_align mx ex (Z.min ex ey)) as [mx' ex'].
    destruct (shl_align my ey (Z.min ex ey)) as [my' ey'].
    cbn [fst snd] in *.
    change (Z.pos mx' + Z.pos my') with (Z.pos (mx' + my')).
    cbn [binary_normalize]. split; [|apply binary_round_nonneg].
    destruct (binary_round_aligned (mx' + my') (Z.min ex ey))
      as (mz & ez & -> & Hez & Hmz & Ha).
    rewrite <- (binary_round_aux_valid mx ex Vx) at 1.
    apply valid_finite in Vx as (Hc & _).
    apply (binary_round_aux_mono mx mz ex ez ez); [lia|done|lia|lia|].
    rewrite Z.sub_diag, Z.mul_1_r, Hmz, Pos2Z.inj_add, Mx.
    replace (ex - ez) with ((ex - ex') + (Z.min ex ey - ez)) by lia.
    rewrite Z.pow_add_r by lia.
    pose proof (Z.pow_pos_nonneg 2 (Z.min ex ey - ez) ltac:(lia) ltac:(lia)).
    pose proof (Z.pow_pos_nonneg 2 (ex - ex') ltac:(lia) ltac:(lia)).
    nia.
Qed.

(** Taking a smaller non-negative number from a finite one leaves a
    non-negative number. *)
Lemma SFsub_nonneg (x y : spec_float) :
  valid_binary x = true → valid_binary y = true →
  SFleb (S754_zero false) y = true → SFleb y x = true →
  x ≠ S754_infinity false →
  SFleb (S754_zero false) (SFsub prec emax x y) = true.
Proof.
  intros Vx Vy Hy Hyx Hfin.
  destruct x as [sx|[]| |[] mx ex]; try done;
    destruct y as [sy|[]| |[] my ey]; try done;
    try (by destruct sx); try (by destruct sx, sy).
  cbn [SFsub cond_Zopp].
  pose proof (SFleb_value my mx ey ex (Z.min ex ey) Vy Vx ltac:(lia) ltac:(lia) Hyx)
    as Hv.
  pose proof (shl_align_spec mx ex (Z.min ex ey)) as [Ex Mx].
  pose proof (shl_align_spec my ey (Z.min ex ey)) as [Ey My].
  destruct (shl_align mx ex (Z.min ex ey)) as [mx' ex'].
  destruct (shl_align my ey (Z.min ex ey)) as [my' ey'].
  cbn [fst snd] in *.
  replace ex' with (Z.min ex ey) in Mx by lia.
  replace ey' with (Z.min ex ey) in My by lia.
  rewrite <- Mx, <- My in Hv.
  destruct (Z.pos mx' - Z.pos my') as [|p|p] eqn:Hd; [done| |lia].
  apply binary_round_nonneg.
Qed.
End Operations.

Section Scaling.
Local Open Scope Z_scope.

Lemma pack_le_infinity (a E : Z) :
  SFleb (pack a E) (S754_infinity false) = true.
Proof.
  unfold pack. destruct a as [|p|p]; try reflexivity.
  destruct (_ =? _); [destruct (_ <=? _)|destruct (_ <=? _)]; reflexivity.
Qed.

Lemma pack_finite (a E : Z) :
  E + 1 ≤ 971 →
  match pack a E with S754_zero _ | S754_finite _ _ _ => true | _ => false end
  = true.
Proof.
  intros HE. unfold pack. destruct a as [|p|p]; try reflexivity.
  destruct (_ =? _).
  - by replace (E + 1 <=? 971) with true by (symmetry; apply Z.leb_le; lia).
  - by replace (E <=? 971) with true by (symmetry; apply Z.leb_le; lia).
Qed.

(** The product of a mantissa with one of 53 digits is not below its
    exponent. *)
Lemma product_aligned (mx mc : positive) (e : Z) :
  dig mc = 53 →
  dig mx + 52 ≤ dig (mx * mc) ≤ dig mx + 53 ∧
  e ≤ fexp prec emax (dig (mx * mc) + e).
Proof.
  intros Hc. destruct (dig_bounds mx) as [Xlo Xhi].
  destruct (dig_bounds mc) as [Clo Chi]. rewrite Hc in Clo, Chi.
  change (2 ^ (53 - 1)) with (2 ^ 52) in Clo.
  destruct (dig_bounds (mx * mc)) as [Plo Phi].
  pose proof (dig_pos mx). pose proof (dig_pos (mx * mc)).
  rewrite Pos2Z.inj_mul in Plo, Phi.
  assert (dig mx + 52 ≤ dig (mx * mc)) as Hlo.
  { destruct (Z.le_gt_cases (dig mx + 52) (dig (mx * mc))) as [|Hgt]; [done|].
    exfalso.
    assert (2 ^ dig (mx * mc) ≤ 2 ^ (dig mx - 1 + 52))
      by (apply Z.pow_le_mono_r; lia).
    rewrite Z.pow_add_r in * by lia. nia. }
  assert (dig (mx * mc) ≤ dig mx + 53) as Hhi.
  { destruct (Z.le_gt_cases (dig (mx * mc)) (dig mx + 53)) as [|Hgt]; [done|].
    exfalso.
    assert (2 ^ (dig mx + 53) ≤ 2 ^ (dig (mx * mc) - 1))
      by (apply Z.pow_le_mono_r; lia).
    rewrite Z.pow_add_r in * by lia. nia. }
  split; [done|]. rewrite fexp_spec. lia.
Qed.

(** Multiplying by a positive normal constant is monotone on the
    non-negative numbers. *)
Lemma SFmul_mono (x x' : spec_float) (mc : positive) (ec : Z) :
  valid_binary x = true → valid_binary x' = true →
  dig mc = 53 →
  SFleb (S754_zero false) x = true → SFleb x x' = true →
  SFleb (SFmul prec emax x (S754_finite false mc ec))
        (SFmul prec emax x' (S754_finite false mc ec)) = true ∧
  SFleb (S754_zero false) (SFmul prec emax x (S754_finite false mc ec)) = true.
Proof.
  intros Vx Vx' Hc Hx Hxx'.
  destruct x as [sx|[]| |[] mx ex]; try done;
    destruct x' as [sx'|[]| |[] mx' ex']; try done;
    try (by destruct sx); try (by destruct sx, sx'); cbn [SFmul xorb].
  - (* 0 and a positive number *)
    destruct (product_aligned mx' mc (ex' + ec) Hc) as [_ Ha].
    rewrite binary_round_aux_pack by done.
    split; [|by destruct sx]. destruct sx; apply pack_nonneg.
  - (* a positive number and infinity *)
    destruct (product_aligned mx mc (ex + ec) Hc) as [_ Ha].
    rewrite binary_round_aux_pack by done.
    split; [apply pack_le_infinity|apply pack_nonneg].
  - (* two positive numbers *)
    destruct (product_aligned mx mc (ex + ec) Hc) as [_ Ha].
    destruct (product_aligned mx' mc (ex' + ec) Hc) as [_ Ha'].
    split; [|rewrite binary_round_aux_pack by done; apply pack_nonneg].
    apply (binary_round_aux_mono _ _ _ _ (Z.min ex ex' + ec)); [done|done|lia|lia|].
    pose proof (SFleb_value mx mx' ex ex' (Z.min ex ex') Vx Vx'
                  ltac:(lia) ltac:(lia) Hxx') as Hv.
    rewrite !Pos2Z.inj_mul.
    replace (ex + ec - (Z.min ex ex' + ec)) with (ex - Z.min ex ex') by lia.
    replace (ex' + ec - (Z.min ex ex' + ec)) with (ex' - Z.min ex ex') by lia.
    nia.
Qed.

(** Multiplying a finite number by a constant below [2^-1] does not
    overflow. *)
Lemma SFmul_finite (x : spec_float) (mc : positive) (ec : Z) :
  valid_binary x = true → dig mc = 53 → ec ≤ -54 →
  match x with S754_zero _ | S754_finite _ _ _ => true | _ => false end = true →
  SFleb (S754_zero false) x = true →
  match SFmul prec emax x (S754_finite false mc ec) with
  | S754_zero _ | S754_finite _ _ _ => true
  | _ => false
  end = true.
Proof.
  intros Vx Hc Hec Hf Hx.
  destruct x as [sx|[]| |[] mx ex]; try done. cbn [SFmul xorb].
  destruct (product_aligned mx mc (ex + ec) Hc) as [[_ Hd] Ha].
  rewrite binary_round_aux_pack by done.
  apply valid_finite in Vx as (_ & He & Hdx & _).
  apply pack_finite. rewrite fexp_spec. lia.
Qed.
End Scaling.

(** ** Order of doubles *)

Lemma jsle_nonneg_refl (x : float) : jsle 0 x → jsle x x.
Proof.
  unfold jsle. rewrite !leb_spec. change (Prim2SF 0) with (S754_zero false).
  destruct (Prim2SF x) as [s|[]| |[] m e]; try done.
  intros _. rewrite SFleb_finite, Z.ltb_irrefl, Z.eqb_refl. simpl.
  apply Z.leb_refl.
Qed.

(** [x <= x + y] and [0 <= x + y] for [x, y >= 0], rounding included. *)
Lemma add_le (x y : float) :
  jsle 0 x → jsle 0 y → jsle x (x + y) ∧ jsle 0 (x + y).
Proof.
  unfold jsle. rewrite !leb_spec, add_spec.
  change (Prim2SF 0) with (S754_zero false).
  apply SFadd_le; apply Prim2SF_valid.
Qed.

(** [0 <= x - y] for [0 <= y <= x] and [x] finite, rounding included. *)
Lemma sub_nonneg (x y : float) :
  finite x = true → jsle 0 y → jsle y x → jsle 0 (x - y).
Proof.
  unfold jsle, finite. rewrite !leb_spec, sub_spec.
  change (Prim2SF 0) with (S754_zero false).
  intros Hf Hy Hyx. apply SFsub_nonneg; try apply Prim2SF_valid; try done.
  intros E. by rewrite E in Hf.
Qed.

Lemma milli_spec : Prim2SF 0.001 = S754_finite false 4611686018427388 (-62).
Proof. reflexivity. Qed.

(** Converting milliseconds to seconds keeps the order, the sign and
    finiteness, rounding included. *)
Lemma milli_mono (x x' : float) :
  jsle 0 x → jsle x x' → jsle (x * 0.001) (x' * 0.001) ∧ jsle 0 (x * 0.001).
Proof.
  unfold jsle. rewrite !leb_spec, !mul_spec, milli_spec.
  change (Prim2SF 0) with (S754_zero false).
  intros Hx Hxx'. apply SFmul_mono; try apply Prim2SF_valid; done.
Qed.

Lemma milli_finite (x : float) :
  finite x = true → jsle 0 x → finite (x * 0.001) = true.
Proof.
  unfold jsle, finite. rewrite !leb_spec, !mul_spec, milli_spec.
  change (Prim2SF 0) with (S754_zero false).
  intros Hf Hx. apply SFmul_finite; try apply Prim2SF_valid; done.
Qed.

(** ** The rotation *)

Lemma render_previousTime (gl : Context) (sc : Scene) (t : float) (s : Loop) :
  previousTime (returned s (render gl sc t s)) = t * 0.001.
Proof. reflexivity. Qed.

Lemma length_deltasOf (prev : float) (ts : list float) :
  length (deltasOf prev ts) = length ts.
Proof. revert prev. induction ts as [|t ts IH]; intros p; simpl; [done|by rewrite IH]. Qed.

Lemma frames_snoc (gl : Context) (sc : Scene) (stamps : list float) (t : float) :
  frames gl sc (stamps ++ [t])
  = returned (frames gl sc stamps) (render gl sc t (frames gl sc stamps)).
Proof. unfold frames. by rewrite foldl_snoc. Qed.

Lemma deltasOf_snoc (p : float) (stamps : list float) (t : float) :
  deltasOf (p * 0.001) (stamps ++ [t])
  = deltasOf (p * 0.001) stamps
    ++ [t * 0.001 - default p (last stamps) * 0.001].
Proof.
  revert p. induction stamps as [|a l IH]; intros p; [done|].
  simpl. rewrite IH. do 5 f_equal. rewrite last_cons. by destruct (last l).
Qed.

Lemma deltasOf_take (p : float) (stamps : list float) (i : nat) :
  deltasOf p (take i stamps) = take i (deltasOf p stamps).
Proof.
  revert p i. induction stamps as [|a l IH]; intros p [|i]; try done.
  simpl. by rewrite IH.
Qed.

Lemma frames_previousTime (gl : Context) (sc : Scene) (stamps : list float) :
  previousTime (frames gl sc stamps) = default 0 (last stamps) * 0.001.
Proof.
  destruct stamps as [|t l _] using rev_ind; [done|].
  by rewrite frames_snoc, render_previousTime, last_snoc.
Qed.

Lemma frames_rotation (gl : Context) (sc : Scene) (stamps : list float) :
  cubeRotation (frames gl sc stamps) = jssum (deltasOf 0 stamps).
Proof.
  induction stamps as [|t l IH] using rev_ind; [done|].
  rewrite frames_snoc, render_rotation, IH, frames_previousTime.
  change (deltasOf 0 (l ++ [t])) with (deltasOf (0 * 0.001) (l ++ [t])).
  by rewrite deltasOf_snoc, jssum_snoc.
Qed.

Lemma last_take_S {A} (l : list A) (j : nat) (a : A) :
  l !! j = Some a → last (take (S j) l) = Some a.
Proof.
  intros H. rewrite (take_S_r l j a H). apply last_snoc.
Qed.

Lemma stampBefore_take (stamps : list float) (i : nat) :
  (i ≤ length stamps)%nat →
  default 0 (last (take i stamps)) = stampBefore stamps i.
Proof.
  intros Hi. destruct i as [|j]; [done|]. simpl.
  destruct (lookup_lt_is_Some_2 stamps j ltac:(lia)) as [a Ha].
  by rewrite (last_take_S _ _ _ Ha), Ha.
Qed.

Lemma ascending_lookup (stamps : list float) :
  ∀ prev i t, ascending prev stamps = true → stamps !! i = Some t →
    finite t = true ∧ jsle 0 t ∧
    jsle (match i with O => prev | S j => default 0 (stamps !! j) end) t.
Proof.
  induction stamps as [|a l IH]; intros prev i t Ha Hi; [done|].
  simpl in Ha. apply andb_true_iff in Ha as [[[Hf H0]%andb_true_iff Hp]%andb_true_iff Hrest].
  destruct i as [|j].
  - injection Hi as <-. done.
  - destruct (IH a j t Hrest Hi) as (F & Z & P). split; [done|]. split; [done|].
    by destruct j.
Qed.

(** The delta of every frame of a non-decreasing stream is not negative. *)
Lemma delta_nonneg (stamps : list float) (i : nat) (t : float) :
  nondecreasing stamps → stamps !! i = Some t →
  jsle 0 (t * 0.001 - stampBefore stamps i * 0.001).
Proof.
  intros Ha Hi. destruct (ascending_lookup stamps 0 i t Ha Hi) as (Hf & H0 & Hp).
  assert (jsle 0 (stampBefore stamps i)) as Hb.
  { destruct i as [|j]; [done|]. simpl.
    pose proof (lookup_lt_Some _ _ _ Hi).
    destruct (lookup_lt_is_Some_2 stamps j ltac:(lia)) as [a Hj].
    rewrite Hj. by destruct (ascending_lookup stamps 0 j a Ha Hj) as (_ & ? & _). }
  destruct (milli_mono (stampBefore stamps i) t Hb Hp) as [Hm Hs].
  apply sub_nonneg; [by apply milli_finite|done|done].
Qed.

(** What frame [i] does to the rotation. *)
Lemma frames_step (gl : Context) (sc : Scene) (stamps : list float) (i : nat)
    (t : float) :
  stamps !! i = Some t →
  let d := t * 0.001 - stampBefore stamps i * 0.001 in
  deltasOf 0 stamps !! i = Some d ∧
  deltaTime (frames gl sc (take (S i) stamps)) = d ∧
  cubeRotation (frames gl sc (take (S i) stamps))
  = cubeRotation (frames gl sc (take i stamps)) + d.
Proof.
  intros Hi d. pose proof (lookup_lt_Some _ _ _ Hi) as Hlt.
  assert (previousTime (frames gl sc (take i stamps))
          = stampBefore stamps i * 0.001) as Hp
    by (by rewrite frames_previousTime, stampBefore_take by lia).
  split; [|split].
  - assert (take (S i) (deltasOf 0 stamps) !! i = Some d) as H.
    { rewrite <- deltasOf_take, (take_S_r _ _ _ Hi).
      change (deltasOf 0 (take i stamps ++ [t]))
        with (deltasOf (0 * 0.001) (take i stamps ++ [t])).
      rewrite deltasOf_snoc, stampBefore_take by lia.
      rewrite lookup_app_r; rewrite length_deltasOf, length_take; [|lia].
      by replace (i - i `min` length stamps)%nat with 0%nat by lia. }
    by rewrite lookup_take_lt in H by lia.
  - rewrite (take_S_r _ _ _ Hi), frames_snoc.
    change (deltaTime (returned ?s (render gl sc t ?s)))
      with (t * 0.001 - previousTime s).
    by rewrite Hp.
  - by rewrite (take_S_r _ _ _ Hi), frames_snoc, render_rotation, Hp.
Qed.

Lemma rotation_nonneg (gl : Context) (sc : Scene) (stamps : list float) (i : nat) :
  nondecreasing stamps →
  jsle 0 (cubeRotation (frames gl sc (take i stamps))).
Proof.
  intros Ha. induction i as [|i IH]; [done|].
  destruct (stamps !! i) as [t|] eqn:Hi.
  - destruct (frames_step gl sc stamps i t Hi) as (_ & _ & ->).
    by apply add_le; [|apply delta_nonneg].
  - apply lookup_ge_None_1 in Hi.
    rewrite take_ge in IH by lia. by rewrite take_ge by lia.
Qed.

(** C6: given timestamps that are finite, not negative and never go back,
    the rotation after frame [i] is the sum, added up frame by frame, of
    the deltas of frames 1 to [i], the delta of a frame being its
    timestamp in seconds less the timestamp in seconds of the frame
    before (0 for the first frame).  Every frame adds its delta, which is
    not negative, to the rotation it found: the rotation is never reset,
    is never negative and never decreases. *)
Theorem rotation_accumulates (gl : Context) (sc : Scene) (stamps : list float) :
  nondecreasing stamps →
  let rotation i := cubeRotation (frames gl sc (take i stamps)) in
  (∀ i, rotation i = jssum (take i (deltasOf 0 stamps))) ∧
  (∀ i t, stamps !! i = Some t →
     let d := t * 0.001 - stampBefore stamps i * 0.001 in
     deltasOf 0 stamps !! i = Some d ∧
     deltaTime (frames gl sc (take (S i) stamps)) = d ∧
     jsle 0 d ∧
     rotation (S i) = rotation i + d) ∧
  (∀ i, jsle 0 (rotation i) ∧ jsle (rotation i) (rotation (S i))).
Proof.
  intros Ha rotation. subst rotation. split; [|split].
  - intros i. by rewrite frames_rotation, deltasOf_take.
  - intros i t Hi d. destruct (frames_step gl sc stamps i t Hi) as (A & B & C).
    split; [done|]. split; [done|]. split; [by apply delta_nonneg|done].
  - intros i. pose proof (rotation_nonneg gl sc stamps i Ha) as H0.
    split; [done|]. cbv beta.
    destruct (stamps !! i) as [t|] eqn:Hi.
    + destruct (frames_step gl sc stamps i t Hi) as (_ & _ & ->).
      by apply add_le; [|apply delta_nonneg].
    + apply lookup_ge_None_1 in Hi.
      rewrite (take_ge stamps (S i)), (take_ge stamps i) by lia.
      rewrite take_ge in H0 by lia. by apply jsle_nonneg_refl.
Qed.

Lemma rotation_accumulates_stamps :
  cubeRotation (frames (canvas true true) theScene (take 4 stamps))
  = jssum (take 4 (deltasOf 0 stamps)) ∧
  jsle (cubeRotation (frames (canvas true true) theScene (take 2 stamps)))
       (cubeRotation (frames (canvas true true) theScene (take 3 stamps))).
Proof.
  destruct (rotation_accumulates (canvas true true) theScene stamps)
    as (A & _ & C); [reflexivity|].
  exact (conj (A 4%nat) (proj2 (C 2%nat))).
Defined.

(** * Further properties *)

(** ** Start-up *)

(** X1: without a WebGL context the page gets one alert and nothing else:
    [main] returns nothing to run, no call reaches a context, nothing is
    drawn and no frame is requested or run, whatever timestamps follow. *)
Theorem no_context_no_work (gl : Context) (stamps : list float) :
  webgl gl = false →
  result (main gl) = Returned None ∧
  session gl stamps
  = [Alert "Unable to initialize WebGL. Your browser may not support it."] ∧
  countCalls isDraw (session gl stamps) = 0%nat ∧
  countCalls isRequest (session gl stamps) = 0%nat.
Proof.
  intros H. unfold session. rewrite (main_no_context gl H). by simpl.
Qed.

Lemma no_context_no_work_stamps :
  session noContext stamps
  = [Alert "Unable to initialize WebGL. Your browser may not support it."].
Proof. apply (no_context_no_work noContext stamps). reflexivity. Defined.

(** X2: when both shaders compile and the program links, [main] raises no
    alert and deletes nothing, and the program it binds for the start-up
    draw and hands to [render] is the linked one, with the vertex shader
    from [vsSource2] and the fragment shader from [fsSource2] attached, in
    that order. *)
Theorem startup_success (gl : Context) :
  webgl gl = true →
  compileStatus gl (mkShader VERTEX_SHADER vsSource2) = true →
  compileStatus gl (mkShader FRAGMENT_SHADER fsSource2) = true →
  linkStatus gl (mkProgram [mkShader VERTEX_SHADER vsSource2;
                            mkShader FRAGMENT_SHADER fsSource2]) = true →
  countCalls isAlert (trace (main gl)) = 0%nat ∧
  countCalls isDelete (trace (main gl)) = 0%nat ∧
  UseProgram (Some linked) ∈ trace (main gl) ∧
  ∃ sc, result (main gl) = Returned (Some (sc, start)) ∧
    piProgram (sceneInfo sc) = Some linked ∧
    ofProgram (vertexPosition (sceneInfo sc)) = linked ∧
    ofProgram (vertexColor (sceneInfo sc)) = linked ∧
    ofProgram (projectionMatrix (sceneInfo sc)) = linked ∧
    ofProgram (modelViewMatrixLoc (sceneInfo sc)) = linked.
Proof.
  intros Hgl Hv Hf Hl. fold linked in Hl.
  assert (startsUp gl = true) as Hs by (by apply startsUp_spec).
  rewrite (main_started gl Hs), trace_pair, result_pair.
  rewrite initShaderProgram_spec, !loadShader_spec, trace_pair.
  fold linked. rewrite Hv, Hf, Hl, !trace_pair, drawScene_trace.
  split; [done|]. split; [done|]. split; [simpl; issued|].
  eexists. repeat split.
Qed.

Lemma startup_success_canvas :
  countCalls isAlert (trace (main (canvas true true))) = 0%nat ∧
  countCalls isDelete (trace (main (canvas true true))) = 0%nat ∧
  UseProgram (Some linked) ∈ trace (main (canvas true true)).
Proof.
  destruct (startup_success (canvas true true)) as (A & B & C & _);
    [reflexivity..|].
  exact (conj A (conj B C)).
Defined.

(** X3: [initShaderProgram] always creates the two shaders and the
    program.  It alerts once per shader that does not compile, and once
    more if both compile and the program does not link; it deletes exactly
    the shaders that did not compile, never the program.  It returns the
    program when both shaders compile and it links, [null] when both
    compile and it does not link, and throws when a shader did not
    compile; it then never reaches [linkProgram]. *)
Theorem failure_accounting (gl : Context) (vs fs : source) :
  let v := mkShader VERTEX_SHADER vs in
  let f := mkShader FRAGMENT_SHADER fs in
  let p := mkProgram [v; f] in
  let t := trace (initShaderProgram gl vs fs) in
  countCalls isCreateShader t = 2%nat ∧
  countCalls isCreateProgram t = 1%nat ∧
  countCalls isAlert t
  = ((if compileStatus gl v then 0 else 1)
     + (if compileStatus gl f then 0 else 1)
     + (if compileStatus gl v && compileStatus gl f && negb (linkStatus gl p)
        then 1 else 0))%nat ∧
  List.filter isDelete t
  = (if compileStatus gl v then [] else [DeleteShader v])
    ++ (if compileStatus gl f then [] else [DeleteShader f]) ∧
  (result (initShaderProgram gl vs fs) = Returned (Some p)
   ↔ compileStatus gl v && compileStatus gl f && linkStatus gl p = true) ∧
  (result (initShaderProgram gl vs fs) = Returned None
   ↔ compileStatus gl v && compileStatus gl f && negb (linkStatus gl p) = true) ∧
  (result (initShaderProgram gl vs fs) = Thrown
   ↔ compileStatus gl v && compileStatus gl f = false) ∧
  (LinkProgram p ∈ t ↔ compileStatus gl v && compileStatus gl f = true).
Proof.
  intros v f p t. subst t.
  rewrite initShaderProgram_spec, !loadShader_spec, result_pair.
  fold v f p.
  destruct (compileStatus gl v), (compileStatus gl f), (linkStatus gl p);
    rewrite !trace_pair; simpl;
    repeat split; try congruence; try done; try solve [intros _; issued];
    intros H; repeat (apply elem_of_cons in H as [H|H]; [done|]);
    by apply elem_of_nil in H.
Qed.

(** ** The session: start-up and frames *)

Lemma render_requests (gl : Context) (sc : Scene) (now : float) (s : Loop) :
  existsb isRequest (trace (render gl sc now s)) = true.
Proof.
  rewrite render_trace, existsb_app. apply orb_true_iff. by right.
Qed.

Lemma loop_cons (gl : Context) (sc : Scene) (s : Loop) (now : float)
    (rest : list float) :
  loop gl sc true s (now :: rest)
  = trace (render gl sc now s)
    ++ loop gl sc true (returned s (render gl sc now s)) rest.
Proof.
  change (loop gl sc true s (now :: rest))
    with (trace (render gl sc now s)
          ++ loop gl sc (existsb isRequest (trace (render gl sc now s)))
               (track maxFrames (spin (tick (now * 0.001) s))) rest).
  by rewrite render_requests.
Qed.

(** When start-up succeeds the session is [main] followed by one frame
    per timestamp; when it does not, the session is [main] alone. *)
Lemma session_frames (gl : Context) (stamps : list float) :
  startsUp gl = true →
  session gl stamps = trace (main gl) ++ loop gl theScene true start stamps.
Proof.
  intros H. unfold session. rewrite (main_started gl H), result_pair, trace_pair.
  f_equal. f_equal. rewrite !existsb_app. simpl. by rewrite !orb_true_r.
Qed.

Lemma session_stopped (gl : Context) (stamps : list float) :
  startsUp gl = false → session gl stamps = trace (main gl).
Proof.
  intros H. unfold session. destruct (webgl gl) eqn:Hw.
  - by rewrite (main_stopped gl Hw H), result_pair, trace_pair, app_nil_r.
  - by rewrite (main_no_context gl Hw).
Qed.

Lemma loop_count (p : call → bool) (k : nat) (gl : Context) (sc : Scene) :
  (∀ now s, countCalls p (trace (render gl sc now s)) = k) →
  ∀ stamps s, countCalls p (loop gl sc true s stamps) = (k * length stamps)%nat.
Proof.
  intros Hk stamps. induction stamps as [|now rest IH]; intros s.
  - unfold countCalls. simpl. lia.
  - rewrite loop_cons, countCalls_app, Hk, IH. simpl length. lia.
Qed.

(** X4: when start-up succeeds, a session of [n] frames draws [n + 1]
    times (the start-up draw and one per frame), requests a frame [n + 1]
    times, so that one request is always left pending and the loop never
    stops, and writes the average [n] times; two shaders, one program and
    one set of buffers are created, at start-up; nothing is deleted and no
    alert is raised.  When a shader does not compile or the program does
    not link, nothing is ever drawn, requested or written, whatever
    timestamps follow: the session is what [main] did before it threw. *)
Theorem session_counts (gl : Context) (stamps : list float) :
  webgl gl = true →
  (startsUp gl = true →
     countCalls isDraw (session gl stamps) = S (length stamps) ∧
     countCalls isRequest (session gl stamps) = S (length stamps) ∧
     countCalls isText (session gl stamps) = length stamps ∧
     countCalls isCreateShader (session gl stamps) = 2%nat ∧
     countCalls isCreateProgram (session gl stamps) = 1%nat ∧
     countCalls isInitBuffers (session gl stamps) = 1%nat ∧
     countCalls isAlert (session gl stamps) = 0%nat ∧
     countCalls isDelete (session gl stamps) = 0%nat) ∧
  (startsUp gl = false →
     session gl stamps = trace (main gl) ∧
     result (main gl) = Thrown ∧
     countCalls isDraw (session gl stamps) = 0%nat ∧
     countCalls isRequest (session gl stamps) = 0%nat ∧
     countCalls isText (session gl stamps) = 0%nat ∧
     countCalls isInitBuffers (session gl stamps) = 0%nat).
Proof.
  intros Hw. split; intros Hs.
  - rewrite (session_frames gl stamps Hs), (main_started gl Hs), trace_pair.
    apply startsUp_spec in Hs as (_ & Hv & Hf & Hl).
    rewrite initShaderProgram_spec, !loadShader_spec, trace_pair.
    fold linked. rewrite Hv, Hf, Hl, !trace_pair, drawScene_trace.
    rewrite !countCalls_app.
    rewrite (loop_count isDraw 1), (loop_count isRequest 1),
      (loop_count isText 1), (loop_count isCreateShader 0),
      (loop_count isCreateProgram 0), (loop_count isInitBuffers 0),
      (loop_count isAlert 0), (loop_count isDelete 0) by done.
    repeat split; unfold countCalls; simpl; lia.
  - rewrite (session_stopped gl stamps Hs), (main_stopped gl Hw Hs).
    rewrite trace_pair, result_pair.
    rewrite initShaderProgram_spec, !loadShader_spec, trace_pair.
    destruct (compileStatus gl _), (compileStatus gl _); rewrite !trace_pair;
      try done; destruct (linkStatus gl _); done.
Qed.

Lemma session_counts_stamps :
  countCalls isDraw (session (canvas true true) stamps) = 5%nat ∧
  countCalls isRequest (session (canvas true true) stamps) = 5%nat ∧
  countCalls isText (session (canvas true true) stamps) = 4%nat ∧
  countCalls isDraw (session (canvas true false) stamps) = 0%nat ∧
  countCalls isRequest (session (canvas false true) stamps) = 0%nat.
Proof.
  destruct (session_counts (canvas true true) stamps) as [Y _]; [reflexivity|].
  destruct Y as (A & B & C & _); [reflexivity|].
  destruct (session_counts (canvas true false) stamps) as [_ N]; [reflexivity|].
  destruct N as (_ & _ & D & _); [reflexivity|].
  destruct (session_counts (canvas false true) stamps) as [_ N]; [reflexivity|].
  destruct N as (_ & _ & _ & E & _); [reflexivity|].
  exact (conj A (conj B (conj C (conj D E)))).
Defined.

(** ** What the page shows *)

Lemma shown_app (t u : list call) : shown (t ++ u) = shown t ++ shown u.
Proof. unfold shown. apply omap_app. Qed.

Lemma sameCounter_average (s u : Loop) :
  sameCounter s u → averageFPS s = averageFPS u.
Proof. intros (_ & _ & Hn & Ht). unfold averageFPS. by rewrite Hn, Ht. Qed.

Lemma render_sameCounter (gl : Context) (sc : Scene) (t : float) (s u : Loop) :
  sameCounter s u →
  sameCounter (returned s (render gl sc t s))
    (update maxFrames (t * 0.001 - previousTime s) u).
Proof.
  intros (H1 & H2 & H3 & H4).
  unfold sameCounter, render, update, track, returned, result. simpl.
  by rewrite H1, H2, H3, H4.
Qed.

Lemma shown_render (gl : Context) (sc : Scene) (now : float) (s : Loop) :
  shown (trace (render gl sc now s))
  = [toFixed1 (numberToString gl)
       (averageFPS (returned s (render gl sc now s)))].
Proof. by rewrite render_trace, shown_app, drawScene_trace. Qed.

Lemma shown_loop (gl : Context) (sc : Scene) (ts : list float) :
  ∀ (s u : Loop),
    sameCounter s u →
    shown (loop gl sc true s ts)
    = toFixed1 (numberToString gl)
        <$> averagesFrom maxFrames u (deltasOf (previousTime s) ts).
Proof.
  induction ts as [|t ts IH]; intros s u Hsu; [done|].
  rewrite loop_cons, shown_app.
  pose proof (render_sameCounter gl sc t s u Hsu) as Hsu'.
  rewrite (IH _ _ Hsu'), shown_render, render_previousTime.
  by rewrite (sameCounter_average _ _ Hsu').
Qed.

Lemma averagesFrom_lookup (cap : nat) (ds : list float) :
  ∀ (u : Loop) (k : nat) (a : float),
    averagesFrom cap u ds !! k = Some a →
    a = averageFPS (foldl (λ s d, update cap d s) u (take (S k) ds)).
Proof.
  induction ds as [|d ds IH]; intros u k a Hk; [done|].
  destruct k as [|k].
  - injection Hk as <-. by rewrite firstn_cons, take_0.
  - rewrite firstn_cons. simpl. by apply IH.
Qed.

Lemma length_averagesFrom (cap : nat) (ds : list float) (u : Loop) :
  length (averagesFrom cap u ds) = length ds.
Proof. revert u. induction ds as [|d ds IH]; intros u; simpl; [done|by rewrite IH]. Qed.

Lemma shown_main (gl : Context) : shown (trace (main gl)) = [].
Proof.
  destruct (startsUp gl) eqn:Hs; [|destruct (webgl gl) eqn:Hw].
  - rewrite (main_started gl Hs), trace_pair, !shown_app.
    destruct (initShaderProgram_quiet gl vsSource2 fsSource2) as (_ & _ & _ & _ & ->).
    by rewrite drawScene_trace.
  - rewrite (main_stopped gl Hw Hs), trace_pair, shown_app.
    by destruct (initShaderProgram_quiet gl vsSource2 fsSource2) as (_ & _ & _ & _ & ->).
  - by rewrite (main_no_context gl Hw).
Qed.

(** X13: when start-up succeeds, the texts written to the page are, frame
    by frame, [toFixed(1)] of the averages of the FPS counter updated with
    the differences of consecutive timestamps in seconds (the first one
    taken from 0): the [k]-th text shown is that of the average after the
    first [k] of those updates.  Nothing else about the context, the
    shaders or the scene affects them. *)
Theorem shown_averages (gl : Context) (ts : list float) :
  startsUp gl = true →
  shown (session gl ts)
  = toFixed1 (numberToString gl)
      <$> averagesFrom maxFrames start (deltasOf 0 ts) ∧
  length (shown (session gl ts)) = length ts ∧
  ∀ k a, shown (session gl ts) !! k = Some a →
    a = toFixed1 (numberToString gl)
          (averageFPS (updates maxFrames (take (S k) (deltasOf 0 ts)))).
Proof.
  intros H.
  assert (shown (session gl ts)
          = toFixed1 (numberToString gl)
              <$> averagesFrom maxFrames start (deltasOf 0 ts)) as E.
  { rewrite (session_frames gl _ H), shown_app, shown_main. simpl.
    by apply shown_loop. }
  split; [exact E|]. rewrite E. split.
  - by rewrite length_fmap, length_averagesFrom, length_deltasOf.
  - intros k a Hk. rewrite list_lookup_fmap in Hk.
    destruct (averagesFrom _ _ _ !! k) as [x|] eqn:Hx; [|done].
    injection Hk as <-. by apply averagesFrom_lookup in Hx as ->.
Qed.

Lemma shown_averages_stamps :
  shown (session (canvas true true) stamps)
  = toFixed1 (numberToString (canvas true true))
      <$> averagesFrom maxFrames start (deltasOf 0 stamps).
Proof.
  apply (shown_averages (canvas true true) stamps). reflexivity.
Defined.

(** ** What is drawn *)

Lemma rotationsFed_loop (gl : Context) (sc : Scene) (stamps : list float) :
  ∀ s, rotationsFed (loop gl sc true s stamps)
       = take (length stamps) (s :: history gl sc s stamps)
           ≫= λ x, drawnAngles (cubeRotation x).
Proof.
  induction stamps as [|now rest IH]; intros s; [done|].
  rewrite loop_cons, rotationsFed_app, rotationsFed_render, IH. reflexivity.
Qed.

(** X5: when start-up succeeds, the rotations drawn in a session are: none
    for the start-up draw ([undefined], [NaN], [NaN]), then for each frame
    the rotation as it stood before that frame, because [render] draws
    before it adds the frame's delta.  The first frame is drawn with
    rotation 0 and frame [k + 1] with the rotation reached after frame
    [k]; the rotation reached after the last frame is never drawn. *)
Theorem drawn_rotation_lags (gl : Context) (stamps : list float) :
  draws (trace (main gl)) = true →
  ∃ sc, result (main gl) = Returned (Some (sc, start)) ∧
    rotationsFed (session gl stamps)
    = [VUndef; VNum nan; VNum nan]
      ++ (take (length stamps) (start :: history gl sc start stamps)
            ≫= λ x, drawnAngles (cubeRotation x)).
Proof.
  rewrite main_draws. intros H.
  eexists. split; [by rewrite (main_started gl H)|].
  rewrite (session_frames gl stamps H), rotationsFed_app, rotationsFed_loop.
  f_equal. rewrite (main_started gl H), trace_pair, !rotationsFed_app.
  destruct (initShaderProgram_quiet gl vsSource2 fsSource2) as (_ & _ & _ & -> & _).
  by rewrite rotationsFed_drawScene.
Qed.

Lemma drawn_rotation_lags_stamps :
  ∃ sc, result (main (canvas true true)) = Returned (Some (sc, start)) ∧
    rotationsFed (session (canvas true true) stamps)
    = [VUndef; VNum nan; VNum nan]
      ++ (take (length stamps)
            (start :: history (canvas true true) sc start stamps)
            ≫= λ x, drawnAngles (cubeRotation x)).
Proof.
  apply (drawn_rotation_lags (canvas true true) stamps). reflexivity.
Defined.

Lemma readings_app (g : Bound) (t u : list call) :
  readings g (t ++ u) = readings g t ++ readings (settle g t) u.
Proof.
  revert g. induction t as [|c t IH]; intros g; [done|].
  simpl. by rewrite IH, app_assoc.
Qed.

Lemma readings_drawScene (g : Bound) (gl : Context) (pi : ProgramInfo)
    (bufs : Buffers) (r : value) :
  readings g (trace (drawScene gl pi bufs r))
  = [PointerFrom (vertexPosition pi) 3 (Some (position bufs));
     PointerFrom (vertexColor pi) 4 (Some (color bufs));
     DrawWith 36 (Some (indices bufs)) (piProgram pi)].
Proof. by rewrite drawScene_trace. Qed.

Lemma readings_initShaderProgram (g : Bound) (gl : Context) (vs fs : source) :
  readings g (trace (initShaderProgram gl vs fs)) = [].
Proof.
  rewrite initShaderProgram_spec, !loadShader_spec.
  destruct (compileStatus gl _), (compileStatus gl _); try done;
    destruct (linkStatus gl _); done.
Qed.

Lemma readings_loop (gl : Context) (sc : Scene) (stamps : list float) :
  ∀ g s, readings g (loop gl sc true s stamps)
         = concat (replicate (length stamps)
             [PointerFrom (vertexPosition (sceneInfo sc)) 3
                (Some (position (sceneBuffers sc)));
              PointerFrom (vertexColor (sceneInfo sc)) 4
                (Some (color (sceneBuffers sc)));
              DrawWith 36 (Some (indices (sceneBuffers sc)))
                (piProgram (sceneInfo sc))]).
Proof.
  induction stamps as [|now rest IH]; intros g s; [done|].
  rewrite loop_cons, readings_app, IH, render_trace, readings_app,
    readings_drawScene. reflexivity.
Qed.

(** X14: when start-up succeeds, every [vertexAttribPointer] and every
    [drawElements] of a session finds the right bindings in place,
    whatever was bound before: in each of the [n + 1] draws the position
    attribute is pointed, 3 components per vertex, at the position buffer,
    the colour attribute, 4 components, at the colour buffer, and the 36
    vertices are drawn with the index buffer on [ELEMENT_ARRAY_BUFFER] and
    with the linked program in use.  When start-up fails no call of the
    session reads a binding. *)
Theorem bindings_at_every_draw (gl : Context) (stamps : list float) (g : Bound) :
  readings g (session gl stamps)
  = if startsUp gl then
      concat (replicate (S (length stamps))
        [PointerFrom (mkLocation linked "aVertexPosition") 3 (Some PositionBuffer);
         PointerFrom (mkLocation linked "aVertexColor") 4 (Some ColorBuffer);
         DrawWith 36 (Some IndexBuffer) (Some linked)])
    else [].
Proof.
  destruct (startsUp gl) eqn:H; [|destruct (webgl gl) eqn:Hw].
  - rewrite (session_frames gl stamps H), readings_app, readings_loop.
    rewrite (main_started gl H), trace_pair.
    rewrite !readings_app, readings_initShaderProgram, readings_drawScene.
    reflexivity.
  - rewrite (session_stopped gl stamps H), (main_stopped gl Hw H), trace_pair.
    by rewrite !readings_app, readings_initShaderProgram.
  - by rewrite (session_stopped gl stamps H), (main_no_context gl Hw).
Qed.

Lemma bindings_at_every_draw_stamps :
  readings unbound (session (canvas true true) stamps)
  = concat (replicate 5
      [PointerFrom (mkLocation linked "aVertexPosition") 3 (Some PositionBuffer);
       PointerFrom (mkLocation linked "aVertexColor") 4 (Some ColorBuffer);
       DrawWith 36 (Some IndexBuffer) (Some linked)]) ∧
  readings unbound (session (canvas true false) stamps) = [].
Proof.
  split.
  - apply (bindings_at_every_draw (canvas true true) stamps unbound).
  - apply (bindings_at_every_draw (canvas true false) stamps unbound).
Defined.

(** ** The ring's contents *)

Lemma no_holes (cap : nat) (ds : list float) :
  (0 < cap)%nat →
  Forall (λ v, ∃ x, v = VNum x) (frameTimes (updates cap ds)).
Proof.
  intros Hcap. induction ds as [|d ds IH] using rev_ind; [constructor|].
  destruct (shaped_updates cap Hcap ds) as (Hc & _ & Hl & _).
  rewrite updates_snoc, update_times, Hc.
  pose proof (Nat.mod_upper_bound (length ds) cap ltac:(lia)).
  destruct (decide (length ds < cap)%nat).
  - rewrite Nat.mod_small by done. rewrite arraySet_push by lia.
    apply Forall_app. split; [done|]. repeat constructor. by eexists.
  - rewrite arraySet_inside by lia. apply Forall_insert; [done|by eexists].
Qed.

(** X7: the ring never holds more than [maxFrames] = 500 samples and has
    no holes.  After [n] updates it holds [min n 500] samples; the sample
    of update [j], for each [j] among the last 500, sits in slot
    [j mod 500]; and while [n <= 500] the ring is simply the samples in the
    order they came. *)
Theorem ring_contents (ds : list float) :
  let s := updates maxFrames ds in
  length (frameTimes s) = (length ds `min` maxFrames)%nat ∧
  (length (frameTimes s) ≤ maxFrames)%nat ∧
  Forall (λ v, ∃ x, v = VNum x) (frameTimes s) ∧
  (∀ j d, ds !! j = Some d → (length ds ≤ j + maxFrames)%nat →
     arrayGet (frameTimes s) (j mod maxFrames) = VNum (fpsOf d)) ∧
  ((length ds ≤ maxFrames)%nat → frameTimes s = (λ d, VNum (fpsOf d)) <$> ds).
Proof.
  intros s. subst s.
  destruct (shaped_updates maxFrames maxFrames_pos ds) as (_ & _ & Hl & Hs).
  split; [done|]. split; [lia|]. split; [apply no_holes, maxFrames_pos|]. split.
  - intros j d Hj Hw. unfold arrayGet. by rewrite (Hs j d Hj Hw).
  - intros Hle. apply list_eq. intros j. rewrite list_lookup_fmap.
    destruct (ds !! j) as [d|] eqn:Hj; simpl.
    + pose proof (lookup_lt_Some _ _ _ Hj).
      rewrite <- (Hs j d Hj ltac:(lia)). by rewrite Nat.mod_small by lia.
    + apply lookup_ge_None_2. apply lookup_ge_None_1 in Hj. lia.
Qed.

Lemma ring_contents_pulse :
  arrayGet (frameTimes (updates maxFrames pulse)) (500 mod maxFrames)
  = VNum (fpsOf 1) ∧
  frameTimes (updates maxFrames warmup) = (λ d, VNum (fpsOf d)) <$> warmup.
Proof.
  split.
  - destruct (ring_contents pulse) as (_ & _ & _ & H & _).
    apply (H 500%nat); [reflexivity|vm_compute; lia].
  - destruct (ring_contents warmup) as (_ & _ & _ & _ & H).
    apply H. vm_compute. lia.
Defined.

(** ** A zero delta, for good *)

Lemma add_nan_l (x : float) : nan + x = nan.
Proof.
  apply Prim2SF_inj. rewrite add_spec.
  change (Prim2SF nan) with S754_nan. reflexivity.
Qed.

Lemma infinity_add (x : float) : infinity + x = infinity ∨ infinity + x = nan.
Proof.
  destruct (Prim2SF x) as [[]|[]| |[] m e] eqn:E;
    first [ left; apply Prim2SF_inj; rewrite add_spec, E; reflexivity
          | right; apply Prim2SF_inj; rewrite add_spec, E; reflexivity ].
Qed.

Lemma sub_infinity (x : float) :
  x - infinity = neg_infinity ∨ x - infinity = nan.
Proof.
  destruct (Prim2SF x) as [[]|[]| |[] m e] eqn:E;
    first [ left; apply Prim2SF_inj; rewrite sub_spec, E; reflexivity
          | right; apply Prim2SF_inj; rewrite sub_spec, E; reflexivity ].
Qed.

(** A zero delta leaves [totalFPS] at [+Infinity] or [NaN] while its
    sample is in the ring, and at [NaN] once the sample has been
    overwritten. *)
Lemma taint (cap : nat) (ds : list float) :
  (0 < cap)%nat →
  ∀ i, ds !! i = Some 0 →
    totalFPS (updates cap ds) = nan ∨
    ((length ds ≤ i + cap)%nat ∧ totalFPS (updates cap ds) = infinity).
Proof.
  intros Hcap. induction ds as [|d ds IH] using rev_ind; intros i Hi; [done|].
  destruct (shaped_updates cap Hcap ds) as (Hc & _ & _ & Hs).
  rewrite updates_snoc, update_total, Hc, length_app. simpl length.
  destruct (decide (i = length ds)) as [->|Hne].
  - rewrite lookup_app_r in Hi by lia. rewrite Nat.sub_diag in Hi.
    injection Hi as ->. change (fpsOf 0) with infinity.
    destruct (infinity_sub (orZero (arrayGet (frameTimes (updates cap ds))
                                      (length ds mod cap)))) as [-> | ->].
    + destruct (add_infinity_r (totalFPS (updates cap ds))) as [-> | ->];
        [right; split; [lia|done] | by left].
    + left. apply add_nan_r.
  - pose proof (lookup_lt_Some _ _ _ Hi) as Hlt.
    rewrite length_app in Hlt. simpl in Hlt.
    rewrite lookup_app_l in Hi by lia.
    destruct (IH i Hi) as [->|[Hres ->]]; [left; apply add_nan_l|].
    destruct (decide (length ds = i + cap)%nat) as [Heq|Hlater].
    + left. pose proof (Hs i 0 Hi ltac:(lia)) as Hslot.
      replace (i mod cap)%nat with (length ds mod cap)%nat in Hslot
        by (rewrite <- (mod_back cap (length ds)) by lia; f_equal; lia).
      unfold arrayGet. rewrite Hslot. simpl default.
      change (orZero (VNum (fpsOf 0))) with infinity.
      destruct (sub_infinity (fpsOf d)) as [-> | ->]; [by vm_compute|].
      apply add_nan_r.
    + destruct (infinity_add
                  (fpsOf d - orZero (arrayGet (frameTimes (updates cap ds))
                                       (length ds mod cap)))) as [->| ->];
        [right; split; [lia|done] | by left].
Qed.

(** X11: once the sample of an update with [deltaTime = 0] has been
    overwritten, that is once 500 further updates have followed it,
    [totalFPS] and the reported average are [NaN], and they stay [NaN]
    after every later update, whatever its delta. *)
Theorem poisoned_for_good (ds : list float) (i : nat) :
  ds !! i = Some 0 → (i + maxFrames < length ds)%nat →
  totalFPS (updates maxFrames ds) = nan ∧
  averageFPS (updates maxFrames ds) = nan ∧
  ∀ more, averageFPS (updates maxFrames (ds ++ more)) = nan.
Proof.
  intros Hi Hlen. pose proof maxFrames_pos as Hcap.
  assert (∀ more, totalFPS (updates maxFrames (ds ++ more)) = nan) as Hall.
  { intros more.
    destruct (taint maxFrames (ds ++ more) Hcap i) as [H|[H _]]; [|done|].
    - by rewrite lookup_app_l by (by eapply lookup_lt_Some).
    - rewrite length_app in H. lia. }
  pose proof (Hall []) as H0. rewrite app_nil_r in H0.
  split; [done|]. split.
  - unfold averageFPS. rewrite H0. apply nan_div.
  - intros more. unfold averageFPS. rewrite Hall. apply nan_div.
Qed.

Lemma poisoned_for_good_stall :
  totalFPS (updates maxFrames stall) = nan ∧
  averageFPS (updates maxFrames stall) = nan ∧
  ∀ more, averageFPS (updates maxFrames (stall ++ more)) = nan.
Proof.
  apply (poisoned_for_good stall 0).
  - reflexivity.
  - vm_compute. lia.
Defined.
